(** * VoiceERP transcript listener: event correlation and processing pipeline

    A shallow embedding of [FreeSWITCHListener] (the switch event-socket
    listener) and [TranscriptProcessor] (queueing, per-call cache, job
    processors), followed by the properties established about them.

    Conventions of the embedding.
    - A JavaScript string is the list of its UTF-16 code units.
    - [Map] objects are finite maps ([gmap]); the [queues] object is a finite
      map from lane name to lane.
    - [Date.now()] is read once per handler invocation and passed in.
    - [uuidv4()] draws from a counter kept next to the store.
    - Logging has no effect on any state modelled here and is left out.
    - An [async] function is run to completion where it is called; a rejected
      promise is the [Throw] completion. Interleavings of pending promises
      are outside the model.
    - The store, the broker and the transcription provider are external; the
      store is the list of rows handed to it, the broker the list of jobs
      handed to each lane with its counters, and whether a request to either
      succeeds is an input of each step. *)

From stdpp Require Import gmap strings list fin_maps.
From Stdlib Require Import ZArith QArith.

Local Open Scope Z_scope.

(* ===================================================================== *)
(** ** JavaScript values *)
(* ===================================================================== *)

(** UTF-16 code units. *)
Definition jsstring : Type := list N.

(** A source-code literal made of ASCII characters. *)
Definition js (s : string) : jsstring :=
  map Ascii.N_of_ascii (String.list_ascii_of_string s).

(** Truthiness of a header value: [undefined] and the empty string are
    falsy, every other string is truthy. *)
Definition truthy (v : option jsstring) : bool :=
  match v with
  | Some (_ :: _) => true
  | _ => false
  end.

(** [a || b] on possibly-undefined strings. *)
Definition js_or (a b : option jsstring) : option jsstring :=
  if truthy a then a else b.

(** JavaScript numbers that hold a confidence: a rational, or [NaN]. *)
Definition jsnum : Type := option Q.

Definition num_truthy (x : jsnum) : bool :=
  match x with
  | Some q => negb (Qeq_bool q 0)
  | None => false
  end.

(** [x || d] for a number [x] and a literal default [d]. *)
Definition num_or (x : jsnum) (d : Q) : Q :=
  match x with
  | Some q => if Qeq_bool q 0 then d else q
  | None => d
  end.

(** [Math.round] of [d / 1000] for an integer [d]: the nearest integer,
    a tie going up. *)
Definition round_div1000 (d : Z) : Z := (d + 500) / 1000.

(* ===================================================================== *)
(** ** Switch events: a bag of headers *)
(* ===================================================================== *)

Definition EslEvent : Type := gmap string jsstring.

Definition getHeader (event : EslEvent) (name : string) : option jsstring :=
  event !! name.

(* ===================================================================== *)
(** ** Utility methods of the listener *)
(* ===================================================================== *)

Definition extractCallSid (event : EslEvent) : option jsstring :=
  js_or (js_or (getHeader event "variable_call_sid")
               (getHeader event "Unique-ID"))
        (getHeader event "Core-UUID").

(** The character class [[ঀ-৿]]. *)
Definition in_bengali_block (c : N) : bool :=
  ((2432 <=? c) && (c <=? 2559))%N.

(** [/[ঀ-৿]/.test(text)] *)
Definition bengali_test (text : jsstring) : bool :=
  existsb in_bengali_block text.

Definition extractLanguage (text : jsstring) : option jsstring :=
  if bengali_test text then Some (js "bn-IN") else None.

(** The part of [p] after its last ['/'], the whole of [p] when there is
    none: [p.split('/').pop()]. *)
Fixpoint last_component (acc p : jsstring) : jsstring :=
  match p with
  | [] => acc
  | c :: p' => if (c =? 47)%N then last_component [] p'
               else last_component (acc ++ [c]) p'
  end.

Definition getFileName (filePath : option jsstring) : jsstring :=
  match filePath with
  | Some p =>
      if truthy filePath then
        match last_component [] p with
        | [] => p
        | name => name
        end
      else []
  | None => []
  end.

(* ===================================================================== *)
(** ** Completions and the state-and-exception monad *)
(* ===================================================================== *)

Inductive Error : Type :=
| TypeError        (* a property read or call on [undefined] *)
| BrokerError      (* the queue broker rejected [add] *)
| StoreError       (* the durable store rejected a write *)
| ProviderError    (* the transcription provider failed *)
| IOError          (* reading the recording file failed *)
| ConnectionError. (* the switch connection failed or timed out *)

Inductive completion (A : Type) : Type :=
| Normal (a : A)
| Throw (e : Error).
Arguments Normal {A} a.
Arguments Throw {A} e.

Definition M (S A : Type) : Type := S → completion A * S.

Instance M_ret {S} : MRet (M S) := λ A a s, (Normal a, s).

Instance M_bind {S} : MBind (M S) := λ A B k m s,
  match m s with
  | (Normal a, s') => k a s'
  | (Throw e, s') => (Throw e, s')
  end.

Definition throw {S A} (e : Error) : M S A := fun s => (Throw e, s).

(** [try { m } catch (error) { h error }]: the state reached when [m]
    threw is kept. *)
Definition try_catch {S A} (m : M S A) (h : Error → M S A) : M S A :=
  fun s => match m s with
           | (Normal a, s') => (Normal a, s')
           | (Throw e, s') => h e s'
           end.

Definition modify {S} (f : S → S) : M S unit := fun s => (Normal tt, f s).
Definition gets {S A} (f : S → A) : M S A := fun s => (Normal (f s), s).

(** Conditional statement without an [else] branch. *)
Definition when {S} (b : bool) (m : M S unit) : M S unit :=
  if b then m else mret tt.

(** Run a computation on a component of the state. *)
Definition zoom {S T A} (get : S → T) (set : T → S → S) (m : M T A) : M S A :=
  fun s => let '(r, t') := m (get s) in (r, set t' s).

(* ===================================================================== *)
(** ** Data handed between the listener, the queues and the store *)
(* ===================================================================== *)

(** [ttsData] and [sttData] of the listener. *)
Record TranscriptEvent := mkTranscriptEvent {
  ev_type : jsstring;
  ev_callSid : jsstring;
  ev_text : jsstring;
  ev_speaker : jsstring;
  ev_timestamp : Z;
  ev_confidence : Q;
  ev_vendor : jsstring;
  ev_language : option jsstring
}.

(** [{ ...eventData, cached_at }] *)
Record CachedEvent := mkCachedEvent {
  cached_data : TranscriptEvent;
  cached_at : Z
}.

(** [audioData] of [handlePlaybackStart]. *)
Record AudioData := mkAudioData {
  au_type : jsstring;
  au_callSid : jsstring;
  au_filePath : jsstring;
  au_fileName : jsstring;
  au_speaker : jsstring;
  au_timestamp : Z
}.

(** [recordingData] of [handleRecordStop]. *)
Record RecordingData := mkRecordingData {
  rec_type : jsstring;
  rec_callSid : jsstring;
  rec_recordingPath : jsstring;
  rec_duration : Q;
  rec_timestamp : Z
}.

(** Entries of a call's [events] array. *)
Inductive CallEvent : Type :=
| ExecuteEvent (application data : option jsstring) (timestamp : Z)
| RecordingStartEvent (callSid recordingPath : jsstring) (timestamp : Z).

(** Entries of the [activeCalls] map. *)
Record CallSession := mkCallSession {
  callSid : jsstring;
  callerNumber : option jsstring;
  destinationNumber : option jsstring;
  startTime : Z;
  answerTime : option Z;
  endTime : option Z;
  hangupCause : option jsstring;
  events : list CallEvent
}.

Record BatchData := mkBatchData {
  batch_type : jsstring;
  batch_callSid : jsstring;
  batch_callData : CallSession;
  batch_transcriptSegments : list CachedEvent
}.

Inductive JobData : Type :=
| TtsJob (eventData : TranscriptEvent)
| SttJob (eventData : TranscriptEvent)
| AudioJob (eventData : AudioData)
| RecordingJob (recordingData : RecordingData)
| BatchJob (batchData : BatchData).

Record JobOpts := mkJobOpts {
  priority : Z;
  attempts : nat;
  delay : option Z;
  backoff : option (jsstring * Z)
}.

Record Job := mkJob {
  job_name : jsstring;
  job_data : JobData;
  job_opts : JobOpts;
  attemptsMade : nat
}.

(** A lane of the broker: the jobs handed to it and its counters. *)
Record BullQueue := mkBullQueue {
  waiting : list Job;
  completed : nat;
  failed : nat
}.

(** *** Rows handed to the durable store *)

Inductive Metadata : Type :=
| TtsMeta (voice : option jsstring) (vendor : jsstring)
          (language : option jsstring)
| SttMeta (vendor : jsstring) (language : option jsstring) (model : jsstring)
| CachedMeta (segment : CachedEvent)
| BatchSttMeta (speakerTag : Z) (wordCount : nat)
               (recordingPath : jsstring) (recordingDuration : Q)
| AudioMeta (speaker type : jsstring).

Record Segment := mkSegment {
  seg_id : N;
  seg_call_transcript_id : option N;
  seg_call_sid : jsstring;
  seg_segment_type : jsstring;
  seg_text : jsstring;
  seg_speaker : jsstring;
  seg_start_time : Z;
  seg_end_time : option Z;
  seg_confidence : Q;
  seg_language : option jsstring;
  seg_vendor : jsstring;
  seg_source_type : jsstring;
  seg_metadata : Metadata;
  seg_created_at : Z
}.

Record CallTranscript := mkCallTranscript {
  ct_id : N;
  ct_call_sid : jsstring;
  ct_caller_number : option jsstring;
  ct_destination_number : option jsstring;
  ct_start_time : Z;
  ct_answer_time : option Z;
  ct_end_time : option Z;        (* [None]: an invalid date *)
  ct_duration : option Z;        (* [None]: [NaN] *)
  ct_hangup_cause : option jsstring;
  ct_total_segments : nat;
  ct_languages : jsstring;
  ct_status : jsstring;
  ct_created_at : Z
}.

Record AudioEventRow := mkAudioEventRow {
  ae_id : N;
  ae_call_sid : jsstring;
  ae_event_type : jsstring;
  ae_file_path : jsstring;
  ae_file_name : jsstring;
  ae_duration : option Q;
  ae_timestamp : Z;
  ae_metadata : Metadata;
  ae_created_at : Z
}.

(** The store as its callers see it: the rows passed to each insert
    operation, oldest first. *)
Record Store := mkStore {
  call_transcripts : list CallTranscript;
  transcript_segments : list Segment;
  audio_events : list AudioEventRow
}.

(** *** The transcription provider's answer *)

Record Word := mkWord {
  word_startSeconds : option Z;
  word_endSeconds : option Z
}.

Record Alternative := mkAlternative {
  alt_transcript : option jsstring;
  alt_confidence : jsnum;
  alt_words : option (list Word)
}.

Record SttResult := mkSttResult {
  res_alternatives : list Alternative;
  res_speakerTag : option Z
}.

(** What a job processor returns. *)
Inductive JobResult : Type :=
| SegmentStored (segmentId : N) (processingTime : Z)
| AudioStored (eventId : N) (processingTime : Z)
| NotProcessed (reason : jsstring)
| NoSpeech
| RecordingProcessed (segments : nat) (processingTime : Z)
                     (recordingDuration : Q)
| BatchProcessed (processingTime : Z).

(** The [processed] field of a result. *)
Definition processed (r : JobResult) : bool :=
  match r with
  | NotProcessed _ => false
  | _ => true
  end.

(** The [segments] field of a result, when it has one. *)
Definition result_segments (r : JobResult) : option nat :=
  match r with
  | NoSpeech => Some 0%nat
  | RecordingProcessed n _ _ => Some n
  | _ => None
  end.

(** What a handler or a job processor reads from its surroundings when it
    runs: the clock, whether the broker and the store accept a request, the
    environment variable holding the provider credentials, the recording
    file and the provider's answer for it. *)
Record World := mkWorld {
  now : Z;
  brokerAccepts : bool;
  storeAccepts : bool;
  GOOGLE_APPLICATION_CREDENTIALS : option jsstring;
  fileAccessible : bool;
  fileReadable : bool;
  recognize : completion (option (list SttResult))
}.

(* ===================================================================== *)
(** ** TranscriptProcessor *)
(* ===================================================================== *)

Record TranscriptProcessor := mkTranscriptProcessor {
  db : Store;
  uuidState : N;
  queues : gmap string BullQueue;
  isInitialized : bool;
  activeCallTranscripts : gmap jsstring (list CachedEvent);
  processedEvents : nat;
  lastPerformanceReport : Z
}.

Definition set_db (f : Store → Store) (p : TranscriptProcessor) :=
  mkTranscriptProcessor (f (db p)) (uuidState p) (queues p) (isInitialized p)
    (activeCallTranscripts p) (processedEvents p) (lastPerformanceReport p).

Definition set_uuidState (f : N → N) (p : TranscriptProcessor) :=
  mkTranscriptProcessor (db p) (f (uuidState p)) (queues p) (isInitialized p)
    (activeCallTranscripts p) (processedEvents p) (lastPerformanceReport p).

Definition set_queues (f : gmap string BullQueue → gmap string BullQueue)
    (p : TranscriptProcessor) :=
  mkTranscriptProcessor (db p) (uuidState p) (f (queues p)) (isInitialized p)
    (activeCallTranscripts p) (processedEvents p) (lastPerformanceReport p).

Definition set_activeCallTranscripts
    (f : gmap jsstring (list CachedEvent) → gmap jsstring (list CachedEvent))
    (p : TranscriptProcessor) :=
  mkTranscriptProcessor (db p) (uuidState p) (queues p) (isInitialized p)
    (f (activeCallTranscripts p)) (processedEvents p) (lastPerformanceReport p).

Definition set_processedEvents (f : nat → nat) (p : TranscriptProcessor) :=
  mkTranscriptProcessor (db p) (uuidState p) (queues p) (isInitialized p)
    (activeCallTranscripts p) (f (processedEvents p)) (lastPerformanceReport p).

Definition set_lastPerformanceReport (f : Z → Z) (p : TranscriptProcessor) :=
  mkTranscriptProcessor (db p) (uuidState p) (queues p) (isInitialized p)
    (activeCallTranscripts p) (processedEvents p) (f (lastPerformanceReport p)).

(** The state a constructor leaves behind, and the five lanes [initialize]
    creates. *)
Definition empty_store : Store := mkStore [] [] [].

Definition new_TranscriptProcessor (t : Z) : TranscriptProcessor :=
  mkTranscriptProcessor empty_store 0%N ∅ false ∅ 0 t.

Definition empty_queue : BullQueue := mkBullQueue [] 0 0.

Definition initialize (p : TranscriptProcessor) : TranscriptProcessor :=
  mkTranscriptProcessor (db p) (uuidState p)
    (<["batch" := empty_queue]>
       (<["recording" := empty_queue]>
          (<["audio" := empty_queue]>
             (<["stt" := empty_queue]>
                (<["tts" := empty_queue]> (queues p))))))
    true (activeCallTranscripts p) (processedEvents p)
    (lastPerformanceReport p).

(** [uuidv4()] *)
Definition uuidv4 : M TranscriptProcessor N :=
  λ p, (Normal (uuidState p), set_uuidState N.succ p).

(** [this.queues[lane].add(name, data, opts)]: reading a lane that was
    never created gives [undefined], whose [add] is a [TypeError]. *)
Definition queue_add (w : World) (lane : string) (name : jsstring)
    (data : JobData) (opts : JobOpts) : M TranscriptProcessor unit :=
  λ p, match queues p !! lane with
       | None => (Throw TypeError, p)
       | Some q =>
           if brokerAccepts w then
             (Normal tt,
              set_queues
                (<[lane := mkBullQueue (waiting q ++ [mkJob name data opts 0])
                             (completed q) (failed q)]>) p)
           else (Throw BrokerError, p)
       end.

(** *** Utility methods *)

Definition CACHE_LIMIT : nat := 100.

Definition addToCallCache (w : World) (callSid : jsstring)
    (eventData : TranscriptEvent)
    (cache : gmap jsstring (list CachedEvent)) : gmap jsstring (list CachedEvent) :=
  let cache1 :=
    match cache !! callSid with
    | None => <[callSid := []]> cache
    | Some _ => cache
    end in
  let pushed := default [] (cache1 !! callSid)
                ++ [mkCachedEvent eventData (now w)] in
  let trimmed :=
    if (CACHE_LIMIT <? length pushed)%nat
    then drop (length pushed - CACHE_LIMIT) pushed
    else pushed in
  <[callSid := trimmed]> cache1.

Definition reportPerformance (p : TranscriptProcessor) : TranscriptProcessor :=
  set_processedEvents (λ _, 0%nat) p.

Definition trackProcessedEvent (w : World) (eventType : string)
    : M TranscriptProcessor unit :=
  modify (set_processedEvents S) ;;
  lastReport ← gets lastPerformanceReport;
  when (60000 <? now w - lastReport)
       (modify reportPerformance ;;
        modify (set_lastPerformanceReport (λ _, now w))).

(** *** Public methods for event processing *)

Definition exponential (d : Z) : option (jsstring * Z) :=
  Some (js "exponential", d).

Definition processTTSEvent (w : World) (eventData : TranscriptEvent)
    : M TranscriptProcessor unit :=
  try_catch
    (queue_add w "tts" (js "tts-event") (TtsJob eventData)
       (mkJobOpts 10 3 None (exponential 1000)) ;;
     modify (set_activeCallTranscripts
               (addToCallCache w (ev_callSid eventData) eventData)) ;;
     trackProcessedEvent w "TTS")
    (λ _, mret tt).

Definition processSTTEvent (w : World) (eventData : TranscriptEvent)
    : M TranscriptProcessor unit :=
  try_catch
    (queue_add w "stt" (js "stt-event") (SttJob eventData)
       (mkJobOpts 10 3 None (exponential 1000)) ;;
     modify (set_activeCallTranscripts
               (addToCallCache w (ev_callSid eventData) eventData)) ;;
     trackProcessedEvent w "STT")
    (λ _, mret tt).

Definition processAudioEvent (w : World) (eventData : AudioData)
    : M TranscriptProcessor unit :=
  try_catch
    (queue_add w "audio" (js "audio-event") (AudioJob eventData)
       (mkJobOpts 5 2 None (exponential 2000)) ;;
     trackProcessedEvent w "AUDIO")
    (λ _, mret tt).

Definition processRecordingComplete (w : World) (recordingData : RecordingData)
    : M TranscriptProcessor unit :=
  try_catch
    (queue_add w "recording" (js "recording-batch") (RecordingJob recordingData)
       (mkJobOpts 3 2 (Some 5000) (exponential 10000)) ;;
     trackProcessedEvent w "RECORDING")
    (λ _, mret tt).

Definition processCallComplete (w : World) (callData : CallSession)
    : M TranscriptProcessor unit :=
  try_catch
    (cachedTranscript ← gets (λ p, activeCallTranscripts p !! callSid callData);
     match cachedTranscript with
     | Some (e :: l) =>
         queue_add w "batch" (js "batch-insert")
           (BatchJob (mkBatchData (js "call_complete") (callSid callData)
                        callData (e :: l)))
           (mkJobOpts 8 3 None None)
     | _ => mret tt
     end ;;
     modify (set_activeCallTranscripts (delete (callSid callData))) ;;
     trackProcessedEvent w "CALL_COMPLETE")
    (λ _, mret tt).

(** *** The store's insert operations, as the processors call them *)

Definition insertTranscriptSegment (w : World) (segment : Segment)
    : M TranscriptProcessor unit :=
  if storeAccepts w then
    modify (set_db (λ d, mkStore (call_transcripts d)
                           (transcript_segments d ++ [segment])
                           (audio_events d)))
  else throw StoreError.

Definition insertTranscriptSegments (w : World) (segments : list Segment)
    : M TranscriptProcessor unit :=
  match segments with
  | [] => mret tt
  | _ =>
      if storeAccepts w then
        modify (set_db (λ d, mkStore (call_transcripts d)
                               (transcript_segments d ++ segments)
                               (audio_events d)))
      else throw StoreError
  end.

Definition insertCallTranscript (w : World) (callTranscript : CallTranscript)
    : M TranscriptProcessor unit :=
  if storeAccepts w then
    modify (set_db (λ d, mkStore (call_transcripts d ++ [callTranscript])
                           (transcript_segments d)
                           (audio_events d)))
  else throw StoreError.

Definition insertAudioEvent (w : World) (audioEvent : AudioEventRow)
    : M TranscriptProcessor unit :=
  if storeAccepts w then
    modify (set_db (λ d, mkStore (call_transcripts d)
                           (transcript_segments d)
                           (audio_events d ++ [audioEvent])))
  else throw StoreError.

(** *** Queue job processors *)

(** [try { m } catch (error) { log; throw error }] *)
Definition rethrowing {S A} (m : M S A) : M S A := try_catch m throw.

(** [s || d] for a string field that is always present. *)
Definition str_or (s d : jsstring) : jsstring :=
  match s with [] => d | _ => s end.

(** [s || d] for a string field that may be [undefined]. *)
Definition opt_or (s : option jsstring) (d : jsstring) : option jsstring :=
  js_or s (Some d).

Definition processTTSJob (w : World) (eventData : TranscriptEvent)
    : M TranscriptProcessor JobResult :=
  rethrowing
    (id ← uuidv4;
     let segment :=
       mkSegment id None (ev_callSid eventData) (js "tts")
         (ev_text eventData)
         (str_or (ev_speaker eventData) (js "agent"))
         (ev_timestamp eventData)
         None
         (num_or (Some (ev_confidence eventData)) 1)
         (opt_or (ev_language eventData) (js "bn-IN"))
         (str_or (ev_vendor eventData) (js "system"))
         (js "tts_generated")
         (TtsMeta None (ev_vendor eventData) (ev_language eventData))
         (now w) in
     insertTranscriptSegment w segment ;;
     mret (SegmentStored (seg_id segment) 0)).

Definition processSTTJob (w : World) (eventData : TranscriptEvent)
    : M TranscriptProcessor JobResult :=
  rethrowing
    (id ← uuidv4;
     let segment :=
       mkSegment id None (ev_callSid eventData) (js "stt")
         (ev_text eventData)
         (str_or (ev_speaker eventData) (js "caller"))
         (ev_timestamp eventData)
         (Some (ev_timestamp eventData))
         (num_or (Some (ev_confidence eventData)) (8 # 10))
         (opt_or (ev_language eventData) (js "bn-BD"))
         (str_or (ev_vendor eventData) (js "google"))
         (js "stt_realtime")
         (SttMeta (ev_vendor eventData) (ev_language eventData) (js "streaming"))
         (now w) in
     insertTranscriptSegment w segment ;;
     mret (SegmentStored (seg_id segment) 0)).

Definition processAudioJob (w : World) (eventData : AudioData)
    : M TranscriptProcessor JobResult :=
  rethrowing
    (id ← uuidv4;
     let audioEvent :=
       mkAudioEventRow id (au_callSid eventData) (au_type eventData)
         (au_filePath eventData) (au_fileName eventData)
         None
         (au_timestamp eventData)
         (AudioMeta (au_speaker eventData) (au_type eventData))
         (now w) in
     insertAudioEvent w audioEvent ;;
     mret (AudioStored (ae_id audioEvent) 0)).

(** **** String and array helpers of the processors *)

Definition is_js_space (c : N) : bool :=
  (((9 <=? c) && (c <=? 13)) || (c =? 32) || (c =? 160) || (c =? 5760)
   || ((8192 <=? c) && (c <=? 8202)) || (c =? 8232) || (c =? 8233)
   || (c =? 8239) || (c =? 8287) || (c =? 12288) || (c =? 65279))%N.

Fixpoint trim_start (s : jsstring) : jsstring :=
  match s with
  | c :: s' => if is_js_space c then trim_start s' else s
  | [] => []
  end.

(** [s.trim()] *)
Definition js_trim (s : jsstring) : jsstring :=
  reverse (trim_start (reverse (trim_start s))).

Fixpoint starts_with (pat s : jsstring) : bool :=
  match pat, s with
  | [], _ => true
  | a :: pat', b :: s' => (a =? b)%N && starts_with pat' s'
  | _ :: _, [] => false
  end.

(** [s.replace(pat, rep)] for a string pattern: the first occurrence only. *)
Fixpoint js_replace (pat rep s : jsstring) : jsstring :=
  if starts_with pat s then rep ++ drop (length pat) s
  else match s with
       | [] => []
       | c :: s' => c :: js_replace pat rep s'
       end.

(** [[...new Set(l)]]: the distinct elements of [l], each at the place of
    its first occurrence. *)
Definition set_insert (acc : list (option jsstring)) (x : option jsstring)
    : list (option jsstring) :=
  if decide (x ∈ acc) then acc else acc ++ [x].

Definition Set_spread (l : list (option jsstring)) : list (option jsstring) :=
  foldl set_insert [] l.

(** [l.join(sep)]: an [undefined] element is written as the empty string. *)
Fixpoint join (sep : jsstring) (l : list (option jsstring)) : jsstring :=
  match l with
  | [] => []
  | [x] => default [] x
  | x :: l' => default [] x ++ sep ++ join sep l'
  end.

(** **** Recording batch transcription *)

Definition speakerTag_of (result : SttResult) (segmentIndex : nat) : Z :=
  let fallback := if (segmentIndex mod 2 =? 0)%nat then 1 else 2 in
  match res_speakerTag result with
  | Some t => if t =? 0 then fallback else t
  | None => fallback
  end.

(** [alternative.words?.[0]?.startTime?.seconds || 0] *)
Definition first_start (alternative : Alternative) : Z :=
  match alt_words alternative with
  | Some (wd :: _) => default 0 (word_startSeconds wd)
  | _ => 0
  end.

(** [alternative.words?.[alternative.words.length - 1]?.endTime?.seconds || 0] *)
Definition last_end (alternative : Alternative) : Z :=
  match alt_words alternative with
  | Some wds => match last wds with
                | Some wd => default 0 (word_endSeconds wd)
                | None => 0
                end
  | None => 0
  end.

Definition wordCount_of (alternative : Alternative) : nat :=
  match alt_words alternative with
  | Some wds => length wds
  | None => 0
  end.

(** The body of the [for (const result of response.results)] loop, with
    [segments] and [segmentIndex] as loop state. *)
Fixpoint recording_segments (w : World) (recordingData : RecordingData)
    (results : list SttResult) (segmentIndex : nat) (segments : list Segment)
    : M TranscriptProcessor (list Segment) :=
  match results with
  | [] => mret segments
  | result :: rest =>
      match res_alternatives result with
      | [] => throw TypeError
      | alternative :: _ =>
          if truthy (alt_transcript alternative)
             && truthy (js_trim <$> alt_transcript alternative)
          then
            id ← uuidv4;
            let speakerTag := speakerTag_of result segmentIndex in
            let speaker := if speakerTag =? 1 then js "caller" else js "agent" in
            let segment :=
              mkSegment id None (rec_callSid recordingData) (js "stt_batch")
                (default [] (alt_transcript alternative))
                speaker
                (rec_timestamp recordingData + first_start alternative * 1000)
                (Some (rec_timestamp recordingData + last_end alternative * 1000))
                (num_or (alt_confidence alternative) (9 # 10))
                (Some (js "bn-BD")) (js "google") (js "stt_batch")
                (BatchSttMeta speakerTag (wordCount_of alternative)
                   (rec_recordingPath recordingData)
                   (rec_duration recordingData))
                (now w) in
            recording_segments w recordingData rest (S segmentIndex)
              (segments ++ [segment])
          else recording_segments w recordingData rest segmentIndex segments
      end
  end.

Definition processRecordingJob (w : World) (recordingData : RecordingData)
    : M TranscriptProcessor JobResult :=
  rethrowing
    (if negb (truthy (GOOGLE_APPLICATION_CREDENTIALS w)) then
       mret (NotProcessed (js "No Google Cloud credentials"))
     else if negb (fileAccessible w) then
       mret (NotProcessed (js "Recording file not found"))
     else if negb (fileReadable w) then throw IOError
     else
       match recognize w with
       | Throw e => throw e
       | Normal None | Normal (Some []) => mret NoSpeech
       | Normal (Some results) =>
           segments ← recording_segments w recordingData results 0 [];
           when (0 <? length segments)%nat
                (insertTranscriptSegments w segments) ;;
           mret (RecordingProcessed (length segments) 0
                   (rec_duration recordingData))
       end).

(** **** Call completion aggregation *)

Definition cached_language (s : CachedEvent) : option jsstring :=
  ev_language (cached_data s).

(** [Math.round((callData.endTime - callData.startTime) / 1000)] *)
Definition call_duration (callData : CallSession) : option Z :=
  (λ e, round_div1000 (e - startTime callData)) <$> endTime callData.

Definition aggregated_segment (w : World) (callTranscript_id : N)
    (callSid : jsstring) (segment : CachedEvent) : M TranscriptProcessor Segment :=
  id ← uuidv4;
  let d := cached_data segment in
  mret (mkSegment id (Some callTranscript_id) callSid
          (if bool_decide (ev_type d = js "tts_start") then js "tts"
           else js_replace (js "_detected") [] (ev_type d))
          (ev_text d) (ev_speaker d)
          (ev_timestamp d) (Some (ev_timestamp d))
          (ev_confidence d) (ev_language d) (ev_vendor d)
          (ev_type d)
          (CachedMeta segment)
          (now w)).

Definition processBatchCallComplete (w : World) (batchData : BatchData)
    : M TranscriptProcessor unit :=
  let callSid := batch_callSid batchData in
  let callData := batch_callData batchData in
  let transcriptSegments := batch_transcriptSegments batchData in
  rethrowing
    (id ← uuidv4;
     let callTranscript :=
       mkCallTranscript id callSid
         (callerNumber callData) (destinationNumber callData)
         (startTime callData)
         (match answerTime callData with
          | Some t => if t =? 0 then None else Some t
          | None => None
          end)
         (endTime callData)
         (call_duration callData)
         (hangupCause callData)
         (length transcriptSegments)
         (join (js ",") (Set_spread (map cached_language transcriptSegments)))
         (js "completed")
         (now w) in
     insertCallTranscript w callTranscript ;;
     when (0 <? length transcriptSegments)%nat
          (segments ← mapM (aggregated_segment w (ct_id callTranscript) callSid)
                           transcriptSegments;
           insertTranscriptSegments w segments)).

Definition processBatchInsert (w : World) (batchData : BatchData)
    : M TranscriptProcessor JobResult :=
  rethrowing
    ((if bool_decide (batch_type batchData = js "call_complete")
      then processBatchCallComplete w batchData
      else mret tt) ;;
     mret (BatchProcessed 0)).

(** *** The broker's worker *)

(** The processor [setupQueueProcessors] registers for the lane a job was
    added to. *)
Definition run_processor (w : World) (job : Job)
    : M TranscriptProcessor JobResult :=
  match job_data job with
  | TtsJob eventData => processTTSJob w eventData
  | SttJob eventData => processSTTJob w eventData
  | AudioJob eventData => processAudioJob w eventData
  | RecordingJob recordingData => processRecordingJob w recordingData
  | BatchJob batchData => processBatchInsert w batchData
  end.

(** The broker is an external library. Its worker is modelled by what the
    processors rely on: a worker takes a waiting job of a lane and runs the
    lane's processor on it; a job whose processor returns is counted as
    completed; a job whose processor throws is handed back for another
    attempt while its attempt budget lasts, and is counted as failed, once,
    when the budget is exhausted. *)
Definition work (w : World) (lane : string) (i : nat)
    : M TranscriptProcessor (option (completion JobResult)) :=
  λ p,
    match queues p !! lane with
    | None => (Normal None, p)
    | Some q =>
        match waiting q !! i with
        | None => (Normal None, p)
        | Some job =>
            let '(r, p') := run_processor w job p in
            let q' := default q (queues p' !! lane) in
            let rest := delete i (waiting q') in
            let settled :=
              match r with
              | Normal _ => mkBullQueue rest (S (completed q')) (failed q')
              | Throw _ =>
                  if (S (attemptsMade job) <? attempts (job_opts job))%nat
                  then mkBullQueue
                         (rest ++ [mkJob (job_name job) (job_data job)
                                     (job_opts job) (S (attemptsMade job))])
                         (completed q') (failed q')
                  else mkBullQueue rest (completed q') (S (failed q'))
              end in
            (Normal (Some r), set_queues (<[lane := settled]>) p')
        end
    end.

(* ===================================================================== *)
(** ** FreeSWITCHListener *)
(* ===================================================================== *)

(** Payloads passed to the broadcast callback. *)
Inductive BroadcastData : Type :=
| BcTranscript (data : TranscriptEvent)
| BcTtsComplete (callSid : jsstring) (timestamp : Z)
| BcAudio (data : AudioData)
| BcAudioComplete (callSid filePath fileName : jsstring) (duration : Q)
                  (timestamp : Z)
| BcRecordingStart (callSid recordingPath : jsstring) (timestamp : Z)
| BcRecording (data : RecordingData).

(** [this.metrics.eventProcessing] of the performance monitor: per event
    type, the (timestamp, processing time) pairs tracked. *)
Definition PerformanceMonitor : Type := gmap string (list (Z * Z)).

Record FreeSWITCHListener := mkFreeSWITCHListener {
  transcriptProcessor : TranscriptProcessor;
  performanceMonitor : option PerformanceMonitor;
  (** [None]: no callback was given; otherwise the calls made to it. *)
  broadcastCallback : option (list (jsstring * BroadcastData));
  isConnected : bool;
  reconnectAttempts : Z;
  maxReconnectAttempts : Z;
  reconnectDelay : Z;
  eventCounts : gmap string nat;
  lastStatsReport : Z;
  activeCalls : gmap jsstring CallSession;
  (** Delays of the reconnect timers set and not yet fired. *)
  timers : list Z;
  (** Events emitted by the listener itself, oldest first. *)
  emitted : list string
}.

Definition set_transcriptProcessor (p : TranscriptProcessor)
    (l : FreeSWITCHListener) :=
  mkFreeSWITCHListener p (performanceMonitor l) (broadcastCallback l)
    (isConnected l) (reconnectAttempts l) (maxReconnectAttempts l)
    (reconnectDelay l) (eventCounts l) (lastStatsReport l) (activeCalls l)
    (timers l) (emitted l).

Definition set_performanceMonitor (f : option PerformanceMonitor → option PerformanceMonitor)
    (l : FreeSWITCHListener) :=
  mkFreeSWITCHListener (transcriptProcessor l) (f (performanceMonitor l))
    (broadcastCallback l)
    (isConnected l) (reconnectAttempts l) (maxReconnectAttempts l)
    (reconnectDelay l) (eventCounts l) (lastStatsReport l) (activeCalls l)
    (timers l) (emitted l).

Definition set_broadcastCallback
    (f : option (list (jsstring * BroadcastData)) → option (list (jsstring * BroadcastData)))
    (l : FreeSWITCHListener) :=
  mkFreeSWITCHListener (transcriptProcessor l) (performanceMonitor l)
    (f (broadcastCallback l))
    (isConnected l) (reconnectAttempts l) (maxReconnectAttempts l)
    (reconnectDelay l) (eventCounts l) (lastStatsReport l) (activeCalls l)
    (timers l) (emitted l).

Definition set_isConnected (b : bool) (l : FreeSWITCHListener) :=
  mkFreeSWITCHListener (transcriptProcessor l) (performanceMonitor l)
    (broadcastCallback l)
    b (reconnectAttempts l) (maxReconnectAttempts l)
    (reconnectDelay l) (eventCounts l) (lastStatsReport l) (activeCalls l)
    (timers l) (emitted l).

Definition set_reconnectAttempts (f : Z → Z) (l : FreeSWITCHListener) :=
  mkFreeSWITCHListener (transcriptProcessor l) (performanceMonitor l)
    (broadcastCallback l)
    (isConnected l) (f (reconnectAttempts l)) (maxReconnectAttempts l)
    (reconnectDelay l) (eventCounts l) (lastStatsReport l) (activeCalls l)
    (timers l) (emitted l).

Definition set_eventCounts (f : gmap string nat → gmap string nat)
    (l : FreeSWITCHListener) :=
  mkFreeSWITCHListener (transcriptProcessor l) (performanceMonitor l)
    (broadcastCallback l)
    (isConnected l) (reconnectAttempts l) (maxReconnectAttempts l)
    (reconnectDelay l) (f (eventCounts l)) (lastStatsReport l) (activeCalls l)
    (timers l) (emitted l).

Definition set_lastStatsReport (t : Z) (l : FreeSWITCHListener) :=
  mkFreeSWITCHListener (transcriptProcessor l) (performanceMonitor l)
    (broadcastCallback l)
    (isConnected l) (reconnectAttempts l) (maxReconnectAttempts l)
    (reconnectDelay l) (eventCounts l) t (activeCalls l)
    (timers l) (emitted l).

Definition set_activeCalls
    (f : gmap jsstring CallSession → gmap jsstring CallSession)
    (l : FreeSWITCHListener) :=
  mkFreeSWITCHListener (transcriptProcessor l) (performanceMonitor l)
    (broadcastCallback l)
    (isConnected l) (reconnectAttempts l) (maxReconnectAttempts l)
    (reconnectDelay l) (eventCounts l) (lastStatsReport l) (f (activeCalls l))
    (timers l) (emitted l).

Definition set_timers (f : list Z → list Z) (l : FreeSWITCHListener) :=
  mkFreeSWITCHListener (transcriptProcessor l) (performanceMonitor l)
    (broadcastCallback l)
    (isConnected l) (reconnectAttempts l) (maxReconnectAttempts l)
    (reconnectDelay l) (eventCounts l) (lastStatsReport l) (activeCalls l)
    (f (timers l)) (emitted l).

Definition set_emitted (f : list string → list string)
    (l : FreeSWITCHListener) :=
  mkFreeSWITCHListener (transcriptProcessor l) (performanceMonitor l)
    (broadcastCallback l)
    (isConnected l) (reconnectAttempts l) (maxReconnectAttempts l)
    (reconnectDelay l) (eventCounts l) (lastStatsReport l) (activeCalls l)
    (timers l) (f (emitted l)).

(** The constructor: [maxAttempts] and [delay] are what the two
    [parseInt(process.env...) || default] expressions evaluate to. *)
Definition new_FreeSWITCHListener (p : TranscriptProcessor)
    (monitor : option PerformanceMonitor) (withBroadcast : bool)
    (maxAttempts delay : Z) (t : Z) : FreeSWITCHListener :=
  mkFreeSWITCHListener p monitor (if withBroadcast then Some [] else None)
    false 0 maxAttempts delay ∅ t ∅ [] [].

(** A call on [this.transcriptProcessor]. *)
Definition on_processor {A} (m : M TranscriptProcessor A)
    : M FreeSWITCHListener A :=
  zoom transcriptProcessor set_transcriptProcessor m.

Section Listener.

(** [parseFloat], applied to a header value that may be [undefined]. *)
Variable parseFloat : option jsstring → jsnum.

(** *** Utility methods *)

(** The value of a header when it is truthy. *)
Definition as_truthy (v : option jsstring) : option jsstring :=
  if truthy v then v else None.

Definition reportStats (l : FreeSWITCHListener) : FreeSWITCHListener :=
  set_eventCounts (λ _, ∅) l.

Definition trackEvent (w : World) (eventType : string)
    : M FreeSWITCHListener unit :=
  modify (set_eventCounts
            (λ counts, <[eventType := S (default 0%nat (counts !! eventType))]> counts)) ;;
  lastReport ← gets lastStatsReport;
  when (60000 <? now w - lastReport)
       (modify reportStats ;;
        modify (set_lastStatsReport (now w))).

Definition push_event (eventData : CallEvent) (call : CallSession) : CallSession :=
  mkCallSession (callSid call) (callerNumber call) (destinationNumber call)
    (startTime call) (answerTime call) (endTime call) (hangupCause call)
    (events call ++ [eventData]).

Definition addCallEvent (callSid : jsstring) (eventData : CallEvent)
    : M FreeSWITCHListener unit :=
  modify (set_activeCalls (alter (push_event eventData) callSid)).

(** [if (this.broadcastCallback) this.broadcastCallback(callSid, data)] *)
Definition broadcast (callSid : jsstring) (data : BroadcastData)
    : M FreeSWITCHListener unit :=
  modify (set_broadcastCallback (fmap (λ calls, calls ++ [(callSid, data)]))).

Definition MAX_METRIC_HISTORY : nat := 1000.

(** [this.performanceMonitor?.trackEventProcessing(eventType, elapsed)] *)
Definition trackEventProcessing (w : World) (eventType : string)
    (processingTimeMs : Z) : M FreeSWITCHListener unit :=
  modify (set_performanceMonitor
            (fmap (λ metrics : PerformanceMonitor,
               let pushed := default [] (metrics !! eventType)
                             ++ [(now w, processingTimeMs)] in
               <[eventType :=
                   if (MAX_METRIC_HISTORY <? length pushed)%nat
                   then drop (length pushed - MAX_METRIC_HISTORY) pushed
                   else pushed]> metrics))).

(** The listener's own [processCallComplete]. *)
Definition listener_processCallComplete (w : World) (call : CallSession)
    : M FreeSWITCHListener unit :=
  on_processor (processCallComplete w call).

(** *** Event handlers *)

Definition handleChannelCreate (w : World) (event : EslEvent)
    : M FreeSWITCHListener unit :=
  let callerNumber := getHeader event "Caller-Caller-ID-Number" in
  let destinationNumber := getHeader event "Caller-Destination-Number" in
  match as_truthy (extractCallSid event) with
  | Some callSid =>
      modify (set_activeCalls
                (<[callSid := mkCallSession callSid callerNumber
                                destinationNumber (now w) None None None []]>)) ;;
      trackEvent w "CHANNEL_CREATE"
  | None => mret tt
  end.

Definition mark_answered (t : Z) (call : CallSession) : CallSession :=
  mkCallSession (callSid call) (callerNumber call) (destinationNumber call)
    (startTime call) (Some t) (endTime call) (hangupCause call) (events call).

Definition handleChannelAnswer (w : World) (event : EslEvent)
    : M FreeSWITCHListener unit :=
  match as_truthy (extractCallSid event) with
  | Some callSid =>
      calls ← gets activeCalls;
      match calls !! callSid with
      | Some _ =>
          modify (set_activeCalls (alter (mark_answered (now w)) callSid)) ;;
          trackEvent w "CHANNEL_ANSWER"
      | None => mret tt
      end
  | None => mret tt
  end.

Definition mark_ended (t : Z) (cause : option jsstring) (call : CallSession)
    : CallSession :=
  mkCallSession (callSid call) (callerNumber call) (destinationNumber call)
    (startTime call) (answerTime call) (Some t) cause (events call).

Definition handleChannelHangup (w : World) (event : EslEvent)
    : M FreeSWITCHListener unit :=
  let hangupCause := getHeader event "Hangup-Cause" in
  match as_truthy (extractCallSid event) with
  | Some callSid =>
      calls ← gets activeCalls;
      match calls !! callSid with
      | Some call =>
          modify (set_activeCalls
                    (alter (mark_ended (now w) hangupCause) callSid)) ;;
          listener_processCallComplete w (mark_ended (now w) hangupCause call) ;;
          modify (set_activeCalls (delete callSid)) ;;
          trackEvent w "CHANNEL_HANGUP"
      | None => mret tt
      end
  | None => mret tt
  end.

(** [this.extractLanguage(applicationData) || 'bn-IN'] *)
Definition ttsData_language (applicationData : jsstring) : option jsstring :=
  js_or (extractLanguage applicationData) (Some (js "bn-IN")).

(** The [ttsData] object literal of [handleChannelExecute]. *)
Definition make_ttsData (w : World) (callSid applicationData : jsstring)
    : TranscriptEvent :=
  mkTranscriptEvent (js "tts_start") callSid applicationData (js "agent")
    (now w) 1 (js "system") (ttsData_language applicationData).

Definition handleChannelExecute (w : World) (event : EslEvent)
    : M FreeSWITCHListener unit :=
  let application := getHeader event "Application" in
  let applicationData := getHeader event "Application-Data" in
  match as_truthy (extractCallSid event) with
  | Some callSid =>
      match as_truthy applicationData with
      | Some text =>
          when (bool_decide (application = Some (js "speak")))
               (let ttsData := make_ttsData w callSid text in
                on_processor (processTTSEvent w ttsData) ;;
                broadcast callSid (BcTranscript ttsData) ;;
                trackEvent w "TTS_START")
      | None => mret tt
      end ;;
      addCallEvent callSid (ExecuteEvent application applicationData (now w))
  | None => mret tt
  end ;;
  trackEventProcessing w "CHANNEL_EXECUTE" 0.

Definition handleChannelExecuteComplete (w : World) (event : EslEvent)
    : M FreeSWITCHListener unit :=
  let application := getHeader event "Application" in
  match as_truthy (extractCallSid event) with
  | Some callSid =>
      when (bool_decide (application = Some (js "speak")))
           (broadcast callSid (BcTtsComplete callSid (now w)) ;;
            trackEvent w "TTS_COMPLETE")
  | None => mret tt
  end.

(** The [sttData] object literal of [handleDetectedSpeech]. *)
Definition make_sttData (w : World) (confidence : option jsstring)
    (callSid speechResult : jsstring) : TranscriptEvent :=
  mkTranscriptEvent (js "stt_detected") callSid speechResult (js "caller")
    (now w) (num_or (parseFloat confidence) (8 # 10)) (js "google")
    (Some (js "bn-BD")).

Definition handleDetectedSpeech (w : World) (event : EslEvent)
    : M FreeSWITCHListener unit :=
  let speechResult := getHeader event "Speech-Result" in
  let confidence := getHeader event "Speech-Confidence" in
  match as_truthy speechResult, as_truthy (extractCallSid event) with
  | Some text, Some callSid =>
      let sttData := make_sttData w confidence callSid text in
      on_processor (processSTTEvent w sttData) ;;
      broadcast callSid (BcTranscript sttData) ;;
      trackEvent w "STT_DETECTED"
  | _, _ => mret tt
  end ;;
  trackEventProcessing w "DETECTED_SPEECH" 0.

Definition handlePlaybackStart (w : World) (event : EslEvent)
    : M FreeSWITCHListener unit :=
  let playbackFile := getHeader event "Playback-File-Path" in
  match as_truthy playbackFile, as_truthy (extractCallSid event) with
  | Some filePath, Some callSid =>
      let audioData :=
        mkAudioData (js "audio_start") callSid filePath
          (getFileName playbackFile) (js "agent") (now w) in
      on_processor (processAudioEvent w audioData) ;;
      broadcast callSid (BcAudio audioData) ;;
      trackEvent w "AUDIO_START"
  | _, _ => mret tt
  end ;;
  trackEventProcessing w "PLAYBACK_START" 0.

Definition handlePlaybackStop (w : World) (event : EslEvent)
    : M FreeSWITCHListener unit :=
  let playbackFile := getHeader event "Playback-File-Path" in
  let playbackSeconds := getHeader event "variable_playback_seconds" in
  match as_truthy playbackFile, as_truthy (extractCallSid event) with
  | Some filePath, Some callSid =>
      broadcast callSid
        (BcAudioComplete callSid filePath (getFileName playbackFile)
           (num_or (parseFloat playbackSeconds) 0) (now w)) ;;
      trackEvent w "AUDIO_COMPLETE"
  | _, _ => mret tt
  end.

Definition handleRecordStart (w : World) (event : EslEvent)
    : M FreeSWITCHListener unit :=
  let recordingPath := getHeader event "Record-File-Path" in
  match as_truthy recordingPath, as_truthy (extractCallSid event) with
  | Some path, Some callSid =>
      addCallEvent callSid (RecordingStartEvent callSid path (now w)) ;;
      broadcast callSid (BcRecordingStart callSid path (now w)) ;;
      trackEvent w "RECORDING_START"
  | _, _ => mret tt
  end.

Definition handleRecordStop (w : World) (event : EslEvent)
    : M FreeSWITCHListener unit :=
  let recordingPath := getHeader event "Record-File-Path" in
  let recordingSeconds := getHeader event "variable_record_seconds" in
  match as_truthy recordingPath, as_truthy (extractCallSid event) with
  | Some path, Some callSid =>
      let recordingData :=
        mkRecordingData (js "recording_complete") callSid path
          (num_or (parseFloat recordingSeconds) 0) (now w) in
      on_processor (processRecordingComplete w recordingData) ;;
      broadcast callSid (BcRecording recordingData) ;;
      trackEvent w "RECORDING_COMPLETE"
  | _, _ => mret tt
  end ;;
  trackEventProcessing w "RECORD_STOP" 0.

(** *** Connection management *)

Definition handleDisconnection : M FreeSWITCHListener unit :=
  reached ← gets (λ l, maxReconnectAttempts l <=? reconnectAttempts l);
  if reached : bool then
    modify (set_emitted (λ e, e ++ ["max_reconnects_reached"]))
  else
    modify (set_reconnectAttempts Z.succ) ;;
    d ← gets reconnectDelay;
    modify (set_timers (λ t, t ++ [d])).

(** How a connection attempt ends: the socket becomes ready, it reports an
    error, or the ten-second timeout expires first. *)
Inductive ConnectOutcome : Type :=
| ConnectReady
| ConnectError
| ConnectTimeout.

(** [connect()]: the handlers of [setupEventHandlers] are registered before
    those of the returned promise, so on an error the listener's own error
    handler runs first and the promise is rejected after it. *)
Definition connect (outcome : ConnectOutcome) : M FreeSWITCHListener unit :=
  match outcome with
  | ConnectReady =>
      modify (set_isConnected true) ;;
      modify (set_reconnectAttempts (λ _, 0))
  | ConnectError =>
      modify (set_isConnected false) ;;
      handleDisconnection ;;
      throw ConnectionError
  | ConnectTimeout => throw ConnectionError
  end.

(** The callback given to [setTimeout] in [handleDisconnection]. *)
Definition reconnect_timer (i : nat) (outcome : ConnectOutcome)
    : M FreeSWITCHListener unit :=
  pending ← gets timers;
  match pending !! i with
  | Some _ =>
      modify (set_timers (delete i)) ;;
      try_catch (connect outcome) (λ _, handleDisconnection)
  | None => mret tt
  end.

Inductive ConnInput : Type :=
| EslEnd
| EslError
| TimerFires (i : nat) (outcome : ConnectOutcome).

Definition on_connection (c : ConnInput) : M FreeSWITCHListener unit :=
  match c with
  | EslEnd | EslError => modify (set_isConnected false) ;; handleDisconnection
  | TimerFires i outcome => reconnect_timer i outcome
  end.

(** *** Dispatch of the switch events, as registered by [setupEventHandlers] *)

Definition on_event (w : World) (name : string) (event : EslEvent)
    : M FreeSWITCHListener unit :=
  if String.eqb name "CHANNEL_CREATE" then handleChannelCreate w event
  else if String.eqb name "CHANNEL_ANSWER" then handleChannelAnswer w event
  else if String.eqb name "CHANNEL_HANGUP" then handleChannelHangup w event
  else if String.eqb name "CHANNEL_EXECUTE" then handleChannelExecute w event
  else if String.eqb name "CHANNEL_EXECUTE_COMPLETE"
       then handleChannelExecuteComplete w event
  else if String.eqb name "DETECTED_SPEECH" then handleDetectedSpeech w event
  else if String.eqb name "PLAYBACK_START" then handlePlaybackStart w event
  else if String.eqb name "PLAYBACK_STOP" then handlePlaybackStop w event
  else if String.eqb name "RECORD_START" then handleRecordStart w event
  else if String.eqb name "RECORD_STOP" then handleRecordStop w event
  else mret tt.

(** One thing happening to the running service: a switch event arrives, the
    connection changes, or a worker takes the [i]-th waiting job of a lane. *)
Inductive Input : Type :=
| Switch (name : string) (event : EslEvent)
| Connection (c : ConnInput)
| Work (lane : string) (i : nat).

Definition step (w : World) (input : Input) : M FreeSWITCHListener unit :=
  match input with
  | Switch name event => on_event w name event
  | Connection c => on_connection c
  | Work lane i => on_processor (work w lane i) ;; mret tt
  end.

(** A run of the service; it stops at the first exception that reaches the
    event source. *)
Fixpoint run (trace : list (World * Input)) : M FreeSWITCHListener unit :=
  match trace with
  | [] => mret tt
  | (w, input) :: rest => step w input ;; run rest
  end.

End Listener.

(* ===================================================================== *)
(** ** Further code of the service *)
(* ===================================================================== *)

(** *** Remaining utility methods of the listener *)

(** [truncateText(text, maxLength)]; the handlers use it in log lines with
    the default [maxLength] of 50. *)
Definition truncateText (text : option jsstring) (maxLength : nat) : jsstring :=
  match text with
  | Some t =>
      if truthy text then
        if (maxLength <? length t)%nat then take maxLength t ++ js "..." else t
      else []
  | None => []
  end.

(** The object [getStats()] of the listener returns. *)
Record ListenerStats := mkListenerStats {
  stats_isConnected : bool;
  stats_reconnectAttempts : Z;
  stats_activeCalls : nat;
  stats_eventCounts : gmap string nat
}.

Definition getStats (l : FreeSWITCHListener) : ListenerStats :=
  mkListenerStats (isConnected l) (reconnectAttempts l)
    (size (activeCalls l)) (eventCounts l).

(** *** Remaining methods of the processor *)

(** [isRedisConnected()] *)
Definition isRedisConnected (p : TranscriptProcessor) : bool :=
  isInitialized p && (0 <? size (queues p))%nat.

(** [shutdown()]: closing the lanes is the broker's business; the cache is
    cleared. *)
Definition shutdown (p : TranscriptProcessor) : TranscriptProcessor :=
  set_activeCallTranscripts (λ _, ∅) p.

(** *** WebSocket fan-out of the server *)

(** A value parsed from JSON, as far as the server looks at it. *)
Inductive JsonVal : Type :=
| JNull
| JBool (b : bool)
| JNumber (q : Q)
| JString (s : jsstring)
| JObject.           (* an object or an array *)

Definition json_truthy (v : option JsonVal) : bool :=
  match v with
  | None | Some JNull => false
  | Some (JBool b) => b
  | Some (JNumber q) => negb (Qeq_bool q 0)
  | Some (JString s) => truthy (Some s)
  | Some JObject => true
  end.

(** [v === s] for a string [s]. *)
Definition json_is_string (v : option JsonVal) (s : jsstring) : bool :=
  match v with
  | Some (JString s') => bool_decide (s' = s)
  | _ => false
  end.

Inductive ReadyState : Type := CONNECTING | OPEN | CLOSING | CLOSED.

Inductive WsMessage : Type :=
| WsWelcome (timestamp : Z)
| WsError (error : jsstring)
| WsTranscriptUpdate (callSid : jsstring) (data : BroadcastData)
                     (timestamp : Z).

(** A connected client: its state, its [callSid] property ([None] when the
    property is absent) and the messages handed to its [send]. *)
Record WsClient := mkWsClient {
  readyState : ReadyState;
  ws_callSid : option JsonVal;
  ws_sent : list WsMessage
}.

Definition ws_send (message : WsMessage) (ws : WsClient) : WsClient :=
  mkWsClient (readyState ws) (ws_callSid ws) (ws_sent ws ++ [message]).

(** The parsed message of a client: its [type] and [callSid] properties. *)
Record ClientMessage := mkClientMessage {
  msg_type : option JsonVal;
  msg_callSid : option JsonVal
}.

Definition handleWebSocketMessage (ws : WsClient) (data : ClientMessage)
    : WsClient :=
  if json_is_string (msg_type data) (js "subscribe") then
    if json_truthy (msg_callSid data)
    then mkWsClient (readyState ws) (msg_callSid data) (ws_sent ws)
    else ws
  else if json_is_string (msg_type data) (js "unsubscribe") then
    mkWsClient (readyState ws) None (ws_sent ws)
  else ws_send (WsError (js "Unknown message type")) ws.

(** Whether [broadcastTranscriptUpdate] sends an update for [callSid] to a
    client. *)
Definition ws_receives (callSid : jsstring) (client : WsClient) : bool :=
  match readyState client with
  | OPEN => json_is_string (ws_callSid client) callSid
            || negb (json_truthy (ws_callSid client))
  | _ => false
  end.

(** [broadcastTranscriptUpdate(callSid, transcriptData)] on
    [this.wsServer.clients]; [None] is a server without [wsServer]. *)
Definition broadcastTranscriptUpdate (w : World) (callSid : jsstring)
    (transcriptData : BroadcastData) (wsServer : option (list WsClient))
    : option (list WsClient) :=
  match wsServer with
  | None => None
  | Some clients =>
      let message := WsTranscriptUpdate callSid transcriptData (now w) in
      Some (map (λ client,
                   if ws_receives callSid client then ws_send message client
                   else client)
                clients)
  end.

(** *** Performance monitor *)

Module Monitor.

Record MemoryUsage := mkMemoryUsage {
  mu_rss : Z;
  mu_heapTotal : Z;
  mu_heapUsed : Z;
  mu_external : Z
}.

(** An entry of [metrics.memoryUsage]: megabytes, rounded. *)
Record MemoryData := mkMemoryData {
  md_timestamp : Z;
  md_rss : Z;
  md_heapTotal : Z;
  md_heapUsed : Z;
  md_external : Z
}.

(** The [stats] object given to [trackQueueStats]. *)
Record QueueStats := mkQueueStats {
  qs_waiting : option Z;
  qs_active : option Z;
  qs_completed : option Z;
  qs_failed : option Z
}.

Inductive Warning : Type :=
| SlowEventProcessing (eventType : string) (processingTime threshold : Z)
| HighMemoryUsage (memoryUsage : MemoryData) (threshold : Z)
| QueueBacklog (queueName : string) (backlog threshold : Z)
| SlowDatabaseOperation (operation : jsstring) (duration threshold : Z).

Record t := mk {
  eventProcessing : gmap string (list (Z * Z));
  memoryUsage : list MemoryData;
  queueStats : gmap string (list (Z * QueueStats));
  databaseStats : list (Z * jsstring * Z);
  (** The ['performance_warning'] events emitted, oldest first. *)
  warnings : list Warning
}.

Definition maxMetricHistory : nat := 1000.
Definition eventProcessingMs : Z := 1000.
Definition memoryUsageMB : Z := 512.
Definition queueBacklog : Z := 100.
Definition databaseResponseMs : Z := 500.

Definition new : t := mk ∅ [] ∅ [] [].

(** [a.shift()] after a push, when the array grew past the limit. *)
Definition shift_over {A} (l : list A) : list A :=
  if (maxMetricHistory <? length l)%nat then drop 1 l else l.

(** [a.splice(0, a.length - limit)], when the array grew past the limit. *)
Definition splice_over {A} (l : list A) : list A :=
  if (maxMetricHistory <? length l)%nat
  then drop (length l - maxMetricHistory) l else l.

Definition trackEventProcessing (timestamp : Z) (eventType : string)
    (processingTimeMs : Z) (m : t) : t :=
  let pushed := default [] (eventProcessing m !! eventType)
                ++ [(timestamp, processingTimeMs)] in
  mk (<[eventType := splice_over pushed]> (eventProcessing m))
     (memoryUsage m) (queueStats m) (databaseStats m)
     (if eventProcessingMs <? processingTimeMs
      then warnings m ++ [SlowEventProcessing eventType processingTimeMs
                            eventProcessingMs]
      else warnings m).

(** [Math.round(bytes / 1024 / 1024)] for a whole number of bytes. *)
Definition megabytes (bytes : Z) : Z := (bytes + 524288) / 1048576.

Definition trackMemoryUsage (timestamp : Z) (memUsage : MemoryUsage) (m : t)
    : MemoryData * t :=
  let memoryData :=
    mkMemoryData timestamp (megabytes (mu_rss memUsage))
      (megabytes (mu_heapTotal memUsage)) (megabytes (mu_heapUsed memUsage))
      (megabytes (mu_external memUsage)) in
  (memoryData,
   mk (eventProcessing m) (shift_over (memoryUsage m ++ [memoryData]))
      (queueStats m) (databaseStats m)
      (if memoryUsageMB <? md_heapUsed memoryData
       then warnings m ++ [HighMemoryUsage memoryData memoryUsageMB]
       else warnings m)).

Definition trackQueueStats (timestamp : Z) (queueName : string)
    (stats : QueueStats) (m : t) : t :=
  let pushed := default [] (queueStats m !! queueName)
                ++ [(timestamp, stats)] in
  let totalBacklog := default 0 (qs_waiting stats)
                      + default 0 (qs_active stats) in
  mk (eventProcessing m) (memoryUsage m)
     (<[queueName := shift_over pushed]> (queueStats m)) (databaseStats m)
     (if queueBacklog <? totalBacklog
      then warnings m ++ [QueueBacklog queueName totalBacklog queueBacklog]
      else warnings m).

Definition trackDatabaseOperation (timestamp : Z) (operation : jsstring)
    (durationMs : Z) (m : t) : t :=
  mk (eventProcessing m) (memoryUsage m) (queueStats m)
     (shift_over (databaseStats m ++ [(timestamp, operation, durationMs)]))
     (if databaseResponseMs <? durationMs
      then warnings m ++ [SlowDatabaseOperation operation durationMs
                            databaseResponseMs]
      else warnings m).

(** [cleanupOldMetrics()] run at time [timestamp]. *)
Definition cleanupOldMetrics (timestamp : Z) (m : t) : t :=
  let cutoffTime := timestamp - 24 * 60 * 60 * 1000 in
  mk (filter (λ e, cutoffTime < e.1) <$> eventProcessing m)
     (filter (λ d, cutoffTime < md_timestamp d) (memoryUsage m))
     (filter (λ e, cutoffTime < e.1) <$> queueStats m)
     (filter (λ e, cutoffTime < e.1.1) (databaseStats m))
     (warnings m).

(** The calls a run makes on the monitor. *)
Inductive Op : Type :=
| TrackEventProcessing (timestamp : Z) (eventType : string)
                       (processingTimeMs : Z)
| TrackMemoryUsage (timestamp : Z) (memUsage : MemoryUsage)
| TrackQueueStats (timestamp : Z) (queueName : string) (stats : QueueStats)
| TrackDatabaseOperation (timestamp : Z) (operation : jsstring)
                         (durationMs : Z)
| CleanupOldMetrics (timestamp : Z).

Definition apply (op : Op) (m : t) : t :=
  match op with
  | TrackEventProcessing ts eventType ms => trackEventProcessing ts eventType ms m
  | TrackMemoryUsage ts memUsage => (trackMemoryUsage ts memUsage m).2
  | TrackQueueStats ts queueName stats => trackQueueStats ts queueName stats m
  | TrackDatabaseOperation ts operation ms => trackDatabaseOperation ts operation ms m
  | CleanupOldMetrics ts => cleanupOldMetrics ts m
  end.

(** Every history holds at most [maxMetricHistory] entries. *)
Definition bounded (m : t) : Prop :=
  (∀ k l, eventProcessing m !! k = Some l → (length l ≤ maxMetricHistory)%nat) ∧
  (length (memoryUsage m) ≤ maxMetricHistory)%nat ∧
  (∀ k l, queueStats m !! k = Some l → (length l ≤ maxMetricHistory)%nat) ∧
  (length (databaseStats m) ≤ maxMetricHistory)%nat.

End Monitor.

(* ===================================================================== *)
(** ** Predicates on computations and states *)
(* ===================================================================== *)

(** [m] keeps the property [I] of the state, whether it returns or throws. *)
Definition preserves {S A} (I : S → Prop) (m : M S A) : Prop :=
  ∀ s, I s → I (m s).2.

(** [m] never throws. *)
Definition returns {S A} (m : M S A) : Prop :=
  ∀ s, ∃ a, (m s).1 = Normal a.

(** Every per-call cache holds at most [CACHE_LIMIT] events. *)
Definition cache_bounded (m : gmap jsstring (list CachedEvent)) : Prop :=
  ∀ callSid cache, m !! callSid = Some cache → (length cache ≤ CACHE_LIMIT)%nat.

(** An aggregation job carries at most [CACHE_LIMIT] segments. *)
Definition job_bounded (job : Job) : Prop :=
  match job_data job with
  | BatchJob b => (length (batch_transcriptSegments b) ≤ CACHE_LIMIT)%nat
  | _ => True
  end.

Definition queues_bounded (qs : gmap string BullQueue) : Prop :=
  ∀ lane q, qs !! lane = Some q → Forall job_bounded (waiting q).

(** Every call-transcript record handed to the store reports at most
    [CACHE_LIMIT] segments. *)
Definition store_bounded (d : Store) : Prop :=
  Forall (λ ct, (ct_total_segments ct ≤ CACHE_LIMIT)%nat) (call_transcripts d).

Definition bounded (p : TranscriptProcessor) : Prop :=
  cache_bounded (activeCallTranscripts p) ∧
  queues_bounded (queues p) ∧
  store_bounded (db p).

(** The reconnect counter stays at or below the ceiling [mx] (at zero when
    the configured ceiling is negative) and every pending reconnect timer
    carries the delay [d]. *)
Definition reconnect_inv (mx d : Z) (l : FreeSWITCHListener) : Prop :=
  maxReconnectAttempts l = mx ∧
  reconnectDelay l = d ∧
  reconnectAttempts l ≤ Z.max 0 mx ∧
  Forall (λ x, x = d) (timers l).

(** The counter is [a], at or above the ceiling in the uses below, and no
    reconnect timer is pending. *)
Definition reconnect_failed (mx a : Z) (l : FreeSWITCHListener) : Prop :=
  maxReconnectAttempts l = mx ∧
  reconnectAttempts l = a ∧
  timers l = [].

(** Source type and end time of the segments handed to the store. *)
Definition stored_end_times (l : FreeSWITCHListener)
    : list (jsstring * option Z) :=
  (λ s, (seg_source_type s, seg_end_time s))
  <$> transcript_segments (db (transcriptProcessor l)).

(** Every session is stored under its own call id. *)
Definition sessions_keyed (m : gmap jsstring CallSession) : Prop :=
  ∀ k call, m !! k = Some call → callSid call = k.

(** Every cached event is stored under its own call id. *)
Definition cache_keyed (m : gmap jsstring (list CachedEvent)) : Prop :=
  ∀ k cache, m !! k = Some cache →
    Forall (λ e, ev_callSid (cached_data e) = k) cache.

(** What an event without a call id can change: nothing but the monitor. *)
Definition same_but_monitor (l l' : FreeSWITCHListener) : Prop :=
  set_performanceMonitor (λ _, None) l' = set_performanceMonitor (λ _, None) l.

(** A lane that kept its jobs in place, possibly with more at the end, and
    kept its counters. *)
Definition lane_extends (q q' : BullQueue) : Prop :=
  waiting q `prefix_of` waiting q' ∧
  completed q' = completed q ∧
  failed q' = failed q.

(** The same lanes, each one extended. *)
Definition lanes_extend (qs qs' : gmap string BullQueue) : Prop :=
  ∀ lane, option_Forall2 lane_extends (qs !! lane) (qs' !! lane).

(** An input that is not the work of a queue worker. *)
Definition is_ingest (input : Input) : Prop :=
  match input with
  | Work _ _ => False
  | _ => True
  end.

Definition keyed (l : FreeSWITCHListener) : Prop :=
  sessions_keyed (activeCalls l) ∧
  cache_keyed (activeCallTranscripts (transcriptProcessor l)).

(** The first alternative of a provider result carries a transcript that is
    not blank: the result becomes a segment. *)
Definition has_speech (result : SttResult) : bool :=
  match res_alternatives result with
  | alternative :: _ =>
      truthy (alt_transcript alternative)
      && truthy (js_trim <$> alt_transcript alternative)
  | [] => false
  end.

(** The transcript of the first alternative of a provider result. *)
Definition first_transcript (result : SttResult) : jsstring :=
  match res_alternatives result with
  | alternative :: _ => default [] (alt_transcript alternative)
  | [] => []
  end.

(** The speaker the recording processor gives the segment of a result that
    is the [n]-th one to become a segment. *)
Definition batch_speaker (n : nat) (result : SttResult) : jsstring :=
  if speakerTag_of result n =? 1 then js "caller" else js "agent".

(* ===================================================================== *)
(** ** Sample states, events and runs *)
(* ===================================================================== *)

(** Time [t], broker and store accepting, no provider credentials. *)
Definition world_at (t : Z) : World :=
  mkWorld t true true None true true (Normal None).

(** A [parseFloat] that answers [NaN]; the sample events carry no numeric
    header. *)
Definition no_parse : option jsstring → jsnum := λ _, None.

(** A freshly started service, lanes created, ten reconnect attempts. *)
Definition idle_listener : FreeSWITCHListener :=
  new_FreeSWITCHListener (initialize (new_TranscriptProcessor 0))
    None true 10 5000 0.

(** The same with two reconnect attempts. *)
Definition two_attempts : FreeSWITCHListener :=
  new_FreeSWITCHListener (initialize (new_TranscriptProcessor 0))
    None true 2 5000 0.

Definition create_C1 : EslEvent :=
  {[ "Unique-ID" := js "C1" ]}.

Definition speak_C1 : EslEvent :=
  {[ "Unique-ID" := js "C1"; "Application" := js "speak";
     "Application-Data" := js "hello" ]}.

Definition speak_complete_C1 : EslEvent :=
  {[ "Unique-ID" := js "C1"; "Application" := js "speak" ]}.

Definition hangup_C1 : EslEvent :=
  {[ "Unique-ID" := js "C1"; "Hangup-Cause" := js "NORMAL_CLEARING" ]}.

(** A recognition event for a call id that was never created. *)
Definition speech_C9 : EslEvent :=
  {[ "Unique-ID" := js "C9"; "Speech-Result" := js "hi" ]}.

(** A session with one recorded event. *)
Definition session_with_history : CallSession :=
  mkCallSession (js "C1") (Some (js "017")) (Some (js "018")) 1000 None None
    None [ExecuteEvent (Some (js "playback")) None 1500].

Definition listener_with_history : FreeSWITCHListener :=
  set_activeCalls (λ _, {[ js "C1" := session_with_history ]}) idle_listener.

(** A session as [handleChannelHangup] hands it over. *)
Definition ended_C1 : CallSession :=
  mkCallSession (js "C1") None None 1000 None (Some 5000)
    (Some (js "NORMAL_CLEARING")) [].

(** A call of 1500 ms with one cached synthesis event. *)
Definition quick_call : CallSession :=
  mkCallSession (js "C1") None None 0 None (Some 1500)
    (Some (js "NORMAL_CLEARING")) [].

Definition quick_batch : BatchData :=
  mkBatchData (js "call_complete") (js "C1") quick_call
    [mkCachedEvent (make_ttsData (world_at 200) (js "C1") (js "hello")) 200].

Definition recording_C1 : RecordingData :=
  mkRecordingData (js "recording_complete") (js "C1") (js "/rec/C1.wav")
    12 9000.

Definition processor_with_recording_job : TranscriptProcessor :=
  (processRecordingComplete (world_at 9000) recording_C1
     (initialize (new_TranscriptProcessor 0))).2.

(** A call with 101 synthesis events, then hung up and aggregated. *)
Definition long_call : list (World * Input) :=
  [(world_at 1000, Switch "CHANNEL_CREATE" create_C1)]
  ++ map (λ k, (world_at (2000 + Z.of_nat k), Switch "CHANNEL_EXECUTE" speak_C1))
         (seq 0 101)
  ++ [(world_at 9000, Switch "CHANNEL_HANGUP" hangup_C1);
      (world_at 9500, Work "batch" 0%nat)].

(** The connection ends and both reconnect attempts time out. *)
Definition two_timeouts : list (World * Input) :=
  [(world_at 100, Connection EslEnd);
   (world_at 5100, Connection (TimerFires 0 ConnectTimeout));
   (world_at 10100, Connection (TimerFires 0 ConnectTimeout))].

(** A call whose synthesis completes before the hangup. *)
Definition completed_speech : list (World * Input) :=
  [(world_at 1000, Switch "CHANNEL_CREATE" create_C1);
   (world_at 2000, Switch "CHANNEL_EXECUTE" speak_C1);
   (world_at 3000, Switch "CHANNEL_EXECUTE_COMPLETE" speak_complete_C1);
   (world_at 3500, Work "tts" 0%nat);
   (world_at 5000, Switch "CHANNEL_HANGUP" hangup_C1);
   (world_at 5500, Work "batch" 0%nat)].

(** The same call hung up while the synthesis is still open. *)
Definition interrupted_speech : list (World * Input) :=
  [(world_at 1000, Switch "CHANNEL_CREATE" create_C1);
   (world_at 2000, Switch "CHANNEL_EXECUTE" speak_C1);
   (world_at 3500, Work "tts" 0%nat);
   (world_at 5000, Switch "CHANNEL_HANGUP" hangup_C1);
   (world_at 5500, Work "batch" 0%nat)].

(* ===================================================================== *)
(** ** Reasoning about computations *)
(* ===================================================================== *)

Section Rules.
Context {S : Type}.

Lemma preserves_ret {A} (I : S → Prop) (a : A) : preserves I (mret a).
Proof. by intros s H. Qed.

Lemma preserves_throw {A} (I : S → Prop) e : preserves I (@throw S A e).
Proof. by intros s H. Qed.

Lemma preserves_bind {A B} (I : S → Prop) (m : M S A) (k : A → M S B) :
  preserves I m → (∀ a, preserves I (k a)) → preserves I (m ≫= k).
Proof.
  intros Hm Hk s H. specialize (Hm s H).
  unfold mbind, M_bind. destruct (m s) as [[a|e] s']; simpl in *.
  - by apply Hk.
  - done.
Qed.

Lemma preserves_try_catch {A} (I : S → Prop) (m : M S A) h :
  preserves I m → (∀ e, preserves I (h e)) → preserves I (try_catch m h).
Proof.
  intros Hm Hh s H. specialize (Hm s H).
  unfold try_catch. destruct (m s) as [[a|e] s']; simpl in *.
  - done.
  - by apply Hh.
Qed.

Lemma preserves_modify (I : S → Prop) (f : S → S) :
  (∀ s, I s → I (f s)) → preserves I (modify f).
Proof. intros Hf s H. by apply Hf. Qed.

Lemma preserves_gets {A} (I : S → Prop) (f : S → A) : preserves I (gets f).
Proof. by intros s H. Qed.

Lemma preserves_when (I : S → Prop) b (m : M S unit) :
  preserves I m → preserves I (when b m).
Proof. intros Hm. destruct b; [done | apply preserves_ret]. Qed.

Lemma preserves_zoom {T A} (I : S → Prop) (J : T → Prop)
    (get : S → T) (set : T → S → S) (m : M T A) :
  (∀ s, I s → J (get s)) →
  (∀ s t, I s → J t → I (set t s)) →
  preserves J m → preserves I (zoom get set m).
Proof.
  intros Hget Hset Hm s H. unfold zoom.
  specialize (Hm (get s) (Hget s H)).
  destruct (m (get s)) as [r t']. simpl in *. by apply Hset.
Qed.

Lemma bind_normal {A B} (m : M S A) (k : A → M S B) s a s' :
  m s = (Normal a, s') → (m ≫= k) s = k a s'.
Proof. intros H. unfold mbind, M_bind. by rewrite H. Qed.

Lemma bind_throw {A B} (m : M S A) (k : A → M S B) s e s' :
  m s = (Throw e, s') → (m ≫= k) s = (Throw e, s').
Proof. intros H. unfold mbind, M_bind. by rewrite H. Qed.

Lemma bind_assoc {A B C} (m : M S A) (k : A → M S B) (k' : B → M S C) s :
  ((m ≫= k) ≫= k') s = (m ≫= λ a, k a ≫= k') s.
Proof. unfold mbind, M_bind. by destruct (m s) as [[a|e] s']. Qed.

Lemma returns_ret {A} (a : A) : returns (mret a : M S A).
Proof. intros s. by exists a. Qed.

Lemma returns_bind {A B} (m : M S A) (k : A → M S B) :
  returns m → (∀ a, returns (k a)) → returns (m ≫= k).
Proof.
  intros Hm Hk s. destruct (Hm s) as [a Ha].
  unfold mbind, M_bind. destruct (m s) as [[a'|e] s']; simpl in *.
  - apply Hk.
  - discriminate.
Qed.

Lemma returns_try_catch {A} (m : M S A) h :
  (∀ e, returns (h e)) → returns (try_catch m h).
Proof.
  intros Hh s. unfold try_catch.
  destruct (m s) as [[a|e] s']; simpl; [by exists a | apply Hh].
Qed.

Lemma returns_modify (f : S → S) : returns (modify f).
Proof. intros s. by exists tt. Qed.

Lemma returns_gets {A} (f : S → A) : returns (gets f).
Proof. intros s. by exists (f s). Qed.

Lemma returns_when b (m : M S unit) : returns m → returns (when b m).
Proof. intros Hm. destruct b; [done | apply returns_ret]. Qed.

Lemma returns_zoom {T A} (get : S → T) (set : T → S → S) (m : M T A) :
  returns m → returns (zoom get set m).
Proof.
  intros Hm s. unfold zoom. destruct (Hm (get s)) as [a Ha].
  destruct (m (get s)) as [r t']. simpl in *. by exists a.
Qed.

Lemma returns_unit (m : M S unit) s : returns m → (m s).1 = Normal tt.
Proof. intros Hm. by destruct (Hm s) as [[] ->]. Qed.

End Rules.

Create HintDb js_returns.
#[export] Hint Resolve returns_ret returns_bind returns_try_catch
  returns_modify returns_gets returns_when returns_zoom : js_returns.

(** Unfolds the monad operations of a goal about a concrete computation. *)
Ltac unfold_m :=
  unfold mbind, M_bind, mret, M_ret, modify, gets, when, zoom, try_catch,
    throw in *.

(* ===================================================================== *)
(** ** Language inference for synthesis text *)
(* ===================================================================== *)

Lemma bengali_test_true text :
  bengali_test text = true ↔ ∃ c, c ∈ text ∧ (2432 ≤ c ≤ 2559)%N.
Proof.
  unfold bengali_test. rewrite existsb_exists. split.
  - intros (c & Hin & Hc). exists c. rewrite list_elem_of_In. split; [done|].
    unfold in_bengali_block in Hc. apply andb_prop in Hc as [H1 H2].
    apply N.leb_le in H1, H2. lia.
  - intros (c & Hin & Hc). exists c. rewrite <- list_elem_of_In. split; [done|].
    unfold in_bengali_block. apply andb_true_intro.
    split; apply N.leb_le; lia.
Qed.

Lemma bengali_test_false text :
  bengali_test text = false ↔ ∀ c, c ∈ text → ¬ (2432 ≤ c ≤ 2559)%N.
Proof.
  rewrite <- not_true_iff_false, bengali_test_true. split.
  - intros H c Hin Hc. apply H. by exists c.
  - intros H (c & Hin & Hc). by apply (H c).
Qed.

(** C4, as stated, fails: a synthesis text without any character of the
    Bengali block still gets a language value in its segment. *)
Lemma tts_language_unset_counterexample :
  ¬ (∀ w callSid text,
       bengali_test text = false →
       ev_language (make_ttsData w callSid text) = None).
Proof.
  intros H.
  specialize (H (mkWorld 0 true true None true true (Normal None))
                (js "C1") (js "hello") eq_refl).
  discriminate H.
Qed.

(** C4, amended: [extractLanguage] answers ['bn-IN'] exactly when the text
    holds a code unit of the Bengali block and [null] exactly when it holds
    none; the segment built by [handleChannelExecute] replaces that [null] by
    ['bn-IN'], so its language is ['bn-IN'] for every text. *)
Theorem tts_language_inference w callSid text :
  (extractLanguage text = Some (js "bn-IN")
     ↔ ∃ c, c ∈ text ∧ (2432 ≤ c ≤ 2559)%N) ∧
  (extractLanguage text = None
     ↔ ∀ c, c ∈ text → ¬ (2432 ≤ c ≤ 2559)%N) ∧
  ev_language (make_ttsData w callSid text) = Some (js "bn-IN").
Proof.
  rewrite <- bengali_test_true, <- bengali_test_false.
  unfold make_ttsData, ttsData_language, extractLanguage. simpl.
  destruct (bengali_test text); simpl;
    (split; [|split]); try done; split; congruence.
Qed.

(** C4, at a text made of two Bengali letters and at an ASCII text. *)
Lemma tts_language_inference_witness :
  extractLanguage [2489; 2509]%N = Some (js "bn-IN") ∧
  extractLanguage (js "hello") = None ∧
  ev_language (make_ttsData (world_at 0) (js "C1") (js "hello"))
  = Some (js "bn-IN").
Proof.
  destruct (tts_language_inference (world_at 0) (js "C1") [2489; 2509]%N)
    as (Hyes & _ & _).
  destruct (tts_language_inference (world_at 0) (js "C1") (js "hello"))
    as (_ & Hno & Hseg).
  split; [|split].
  - apply Hyes. exists 2489%N. split; [apply list_elem_of_here | lia].
  - apply Hno. intros c Hc Hrange.
    apply list_elem_of_In in Hc. simpl in Hc.
    repeat destruct Hc as [<- | Hc]; lia || done.
  - exact Hseg.
Defined.

(* ===================================================================== *)
(** ** Call session tracker: create and hangup *)
(* ===================================================================== *)

Lemma trackEvent_activeCalls w eventType l :
  activeCalls (trackEvent w eventType l).2 = activeCalls l.
Proof.
  unfold trackEvent. unfold_m. simpl.
  by destruct (60000 <? _).
Qed.

Lemma trackEvent_returns w eventType : returns (trackEvent w eventType).
Proof. unfold trackEvent. eauto 10 with js_returns. Qed.

(** C3, as stated, fails: a second create for an id that has an entry does
    not leave the existing session unchanged. *)
Lemma duplicate_create_counterexample :
  ¬ (∀ w event l callSid call,
       as_truthy (extractCallSid event) = Some callSid →
       activeCalls l !! callSid = Some call →
       activeCalls (handleChannelCreate w event l).2 !! callSid = Some call).
Proof.
  intros H.
  specialize (H (world_at 2000) create_C1 listener_with_history (js "C1")
                session_with_history eq_refl eq_refl).
  vm_compute in H. discriminate H.
Qed.

(** C3, amended: a create event that carries a call id stores a fresh
    session under that id (start time now, caller and destination from the
    event, empty event history), replacing any session already stored under
    it; sessions of other ids are left as they are, and the handler returns. *)
Theorem handleChannelCreate_replaces w event l callSid :
  as_truthy (extractCallSid event) = Some callSid →
  (handleChannelCreate w event l).1 = Normal tt ∧
  activeCalls (handleChannelCreate w event l).2
  = <[callSid := mkCallSession callSid
                   (getHeader event "Caller-Caller-ID-Number")
                   (getHeader event "Caller-Destination-Number")
                   (now w) None None None []]> (activeCalls l).
Proof.
  intros Hsid. unfold handleChannelCreate. rewrite Hsid. split.
  - apply returns_unit. eauto using trackEvent_returns with js_returns.
  - unfold mbind at 1, M_bind, modify. simpl.
    by rewrite trackEvent_activeCalls.
Qed.

(** C3, at a second create for the id of a session that has history. *)
Lemma handleChannelCreate_replaces_witness :
  activeCalls (handleChannelCreate (world_at 2000) create_C1
                 listener_with_history).2 !! js "C1"
  = Some (mkCallSession (js "C1") None None 2000 None None None []).
Proof.
  destruct (handleChannelCreate_replaces (world_at 2000) create_C1
              listener_with_history (js "C1") eq_refl) as [_ ->].
  apply lookup_insert_eq.
Defined.

Lemma trackProcessedEvent_returns w eventType :
  returns (trackProcessedEvent w eventType).
Proof. unfold trackProcessedEvent. eauto 10 with js_returns. Qed.

Lemma processCallComplete_returns w callData :
  returns (processCallComplete w callData).
Proof. unfold processCallComplete. eauto with js_returns. Qed.

Lemma on_processor_activeCalls {A} (m : M TranscriptProcessor A) l :
  activeCalls (on_processor m l).2 = activeCalls l.
Proof.
  unfold on_processor, zoom. by destruct (m (transcriptProcessor l)).
Qed.

Lemma on_processor_returns {A} (m : M TranscriptProcessor A) :
  returns m → returns (on_processor m).
Proof. apply returns_zoom. Qed.

(** A hangup for an id without an entry changes nothing. *)
Lemma handleChannelHangup_absent w event l callSid :
  as_truthy (extractCallSid event) = Some callSid →
  activeCalls l !! callSid = None →
  handleChannelHangup w event l = (Normal tt, l).
Proof.
  intros Hsid Hnone. unfold handleChannelHangup. rewrite Hsid.
  unfold_m. by rewrite Hnone.
Qed.

Lemma handleChannelHangup_no_id w event l :
  as_truthy (extractCallSid event) = None →
  handleChannelHangup w event l = (Normal tt, l).
Proof. intros Hsid. unfold handleChannelHangup. by rewrite Hsid. Qed.

(** A hangup for an id with an entry removes the entry. *)
Lemma handleChannelHangup_removes w event l callSid call :
  as_truthy (extractCallSid event) = Some callSid →
  activeCalls l !! callSid = Some call →
  activeCalls (handleChannelHangup w event l).2 !! callSid = None.
Proof.
  intros Hsid Hcall. unfold handleChannelHangup. rewrite Hsid.
  unfold mbind at 1, M_bind, gets. rewrite Hcall.
  unfold mbind at 1, M_bind, modify.
  set (l1 := set_activeCalls _ l).
  unfold mbind at 1, M_bind.
  unfold listener_processCallComplete.
  set (m := processCallComplete w _).
  pose proof (returns_unit _ l1
    (on_processor_returns m (processCallComplete_returns w _))) as Hret.
  pose proof (on_processor_activeCalls m l1) as Hframe.
  destruct (on_processor m l1) as [r l2]. simpl in Hret, Hframe. subst r.
  unfold mbind, M_bind. simpl.
  rewrite trackEvent_activeCalls. simpl. apply lookup_delete_eq.
Qed.

(** C8: a second hangup for a call id, after a first one was processed, is a
    no-op: it returns and leaves the whole state of the listener (active
    calls, counters, the processor with its queues, cache and store) as the
    first hangup left it. *)
Theorem handleChannelHangup_idempotent w w' event l :
  handleChannelHangup w' event (handleChannelHangup w event l).2
  = (Normal tt, (handleChannelHangup w event l).2).
Proof.
  destruct (as_truthy (extractCallSid event)) as [callSid|] eqn:Hsid.
  - destruct (activeCalls l !! callSid) as [call|] eqn:Hcall.
    + eapply handleChannelHangup_absent; [done|].
      by eapply handleChannelHangup_removes.
    + rewrite (handleChannelHangup_absent w event l callSid) by done.
      by apply handleChannelHangup_absent with callSid.
  - rewrite !handleChannelHangup_no_id; done.
Qed.

(** C8, at a call with one cached event: the first hangup removes the
    session and queues the aggregation, the second changes nothing. *)
Lemma handleChannelHangup_idempotent_witness :
  let l0 := (run no_parse
               [(world_at 1000, Switch "CHANNEL_CREATE" create_C1);
                (world_at 2000, Switch "CHANNEL_EXECUTE" speak_C1)]
               idle_listener).2 in
  let l1 := (handleChannelHangup (world_at 5000) hangup_C1 l0).2 in
  is_Some (activeCalls l0 !! js "C1") ∧
  activeCalls l1 !! js "C1" = None ∧
  (length ∘ waiting <$> queues (transcriptProcessor l1) !! "batch")
  = Some 1%nat ∧
  handleChannelHangup (world_at 6000) hangup_C1 l1 = (Normal tt, l1).
Proof.
  intros l0 l1. split; [|split; [|split]].
  - vm_compute. eauto.
  - vm_compute. reflexivity.
  - vm_compute. reflexivity.
  - apply handleChannelHangup_idempotent.
Defined.

(* ===================================================================== *)
(** ** Call completion without cached events *)
(* ===================================================================== *)

Lemma trackProcessedEvent_frame w eventType p :
  let p' := (trackProcessedEvent w eventType p).2 in
  queues p' = queues p ∧ db p' = db p ∧
  activeCallTranscripts p' = activeCallTranscripts p.
Proof.
  unfold trackProcessedEvent. unfold_m. simpl.
  by destruct (60000 <? _).
Qed.

(** C10: when the per-call cache is absent or empty at call completion, no
    aggregation job is added to any lane, nothing is handed to the store, the
    cache entry for the call id is removed, and the call returns. *)
Theorem processCallComplete_no_cache w callData p :
  activeCallTranscripts p !! callSid callData = None
  ∨ activeCallTranscripts p !! callSid callData = Some [] →
  let r := processCallComplete w callData p in
  r.1 = Normal tt ∧
  queues r.2 = queues p ∧
  db r.2 = db p ∧
  activeCallTranscripts r.2 = delete (callSid callData) (activeCallTranscripts p) ∧
  activeCallTranscripts r.2 !! callSid callData = None.
Proof.
  intros Hcache r.
  assert (r = trackProcessedEvent w "CALL_COMPLETE"
                (set_activeCallTranscripts (delete (callSid callData)) p)) as Hr.
  { subst r. unfold processCallComplete, try_catch.
    unfold mbind at 1, M_bind, gets.
    destruct Hcache as [-> | ->]; unfold mbind at 1, M_bind, mret, M_ret;
      unfold mbind at 1, M_bind, modify;
      pose proof (returns_unit _
        (set_activeCallTranscripts (delete (callSid callData)) p)
        (trackProcessedEvent_returns w "CALL_COMPLETE")) as Hret;
      destruct (trackProcessedEvent w "CALL_COMPLETE" _) as [c p'];
      simpl in Hret; by subst c. }
  pose proof (trackProcessedEvent_frame w "CALL_COMPLETE"
    (set_activeCallTranscripts (delete (callSid callData)) p)) as (Hq & Hdb & Hc).
  rewrite Hr. repeat split.
  - apply returns_unit, trackProcessedEvent_returns.
  - by rewrite Hq.
  - by rewrite Hdb.
  - by rewrite Hc.
  - rewrite Hc. simpl. apply lookup_delete_eq.
Qed.

(** C10, at a call that ends without any cached event. *)
Lemma processCallComplete_no_cache_witness :
  queues (processCallComplete (world_at 5000) ended_C1
            (initialize (new_TranscriptProcessor 0))).2
  = queues (initialize (new_TranscriptProcessor 0)).
Proof.
  apply (processCallComplete_no_cache (world_at 5000) ended_C1
           (initialize (new_TranscriptProcessor 0))).
  left. reflexivity.
Defined.

(* ===================================================================== *)
(** ** Recording batch transcription without provider credentials *)
(* ===================================================================== *)

Lemma processRecordingJob_no_credentials w recordingData p :
  truthy (GOOGLE_APPLICATION_CREDENTIALS w) = false →
  processRecordingJob w recordingData p
  = (Normal (NotProcessed (js "No Google Cloud credentials")), p).
Proof.
  intros Hcred. unfold processRecordingJob, rethrowing, try_catch.
  by rewrite Hcred.
Qed.

(** C6: without provider credentials the recording processor returns the
    result [{ processed: false, reason: 'No Google Cloud credentials' }]
    without throwing and without touching the processor's state, so no
    segment is handed to the store; the worker that ran the job counts it as
    completed and leaves the lane's failure counter as it was. *)
Theorem processRecordingJob_skips_without_credentials
    w recordingData p q i job :
  truthy (GOOGLE_APPLICATION_CREDENTIALS w) = false →
  queues p !! "recording" = Some q →
  waiting q !! i = Some job →
  job_data job = RecordingJob recordingData →
  let skipped := NotProcessed (js "No Google Cloud credentials") in
  processRecordingJob w recordingData p = (Normal skipped, p) ∧
  processed skipped = false ∧
  let r := work w "recording" i p in
  r.1 = Normal (Some (Normal skipped)) ∧
  db r.2 = db p ∧
  transcript_segments (db r.2) = transcript_segments (db p) ∧
  activeCallTranscripts r.2 = activeCallTranscripts p ∧
  queues r.2
  = <["recording" := mkBullQueue (delete i (waiting q))
                       (S (completed q)) (failed q)]> (queues p).
Proof.
  intros Hcred Hq Hjob Hdata skipped.
  split; [by apply processRecordingJob_no_credentials|].
  split; [done|].
  unfold work. rewrite Hq, Hjob. unfold run_processor. rewrite Hdata.
  rewrite processRecordingJob_no_credentials by done.
  simpl. by rewrite Hq.
Qed.

(** C6, at a recording job run in a world without credentials. *)
Lemma processRecordingJob_skips_without_credentials_witness :
  (work (world_at 14000) "recording" 0 processor_with_recording_job).1
  = Normal (Some (Normal (NotProcessed (js "No Google Cloud credentials")))).
Proof.
  refine (proj1 (proj2 (proj2
    (processRecordingJob_skips_without_credentials (world_at 14000)
       recording_C1 processor_with_recording_job
       (mkBullQueue
          [mkJob (js "recording-batch") (RecordingJob recording_C1)
             (mkJobOpts 3 2 (Some 5000) (exponential 10000)) 0] 0 0)
       0 _ eq_refl _ eq_refl eq_refl)))).
  vm_compute. reflexivity.
Defined.

(* ===================================================================== *)
(** ** Call completion aggregation *)
(* ===================================================================== *)

Lemma foldl_set_insert_elem (l acc : list (option jsstring)) x :
  x ∈ foldl set_insert acc l ↔ x ∈ acc ∨ x ∈ l.
Proof.
  revert acc. induction l as [|y l IH]; intros acc; simpl.
  - rewrite elem_of_nil. tauto.
  - rewrite IH, elem_of_cons. unfold set_insert.
    destruct (decide (y ∈ acc)) as [Hy|Hy].
    + split; [tauto|]. intros [H|[->|H]]; tauto.
    + rewrite elem_of_app, list_elem_of_singleton. tauto.
Qed.

Lemma foldl_set_insert_NoDup (l acc : list (option jsstring)) :
  NoDup acc → NoDup (foldl set_insert acc l).
Proof.
  revert acc. induction l as [|y l IH]; intros acc Hacc; simpl; [done|].
  apply IH. unfold set_insert. destruct (decide (y ∈ acc)) as [Hy|Hy]; [done|].
  apply NoDup_app. split; [done|]. split.
  - intros x Hx Hx'. apply list_elem_of_singleton in Hx'. by subst.
  - apply NoDup_singleton.
Qed.

Lemma Set_spread_elem l x : x ∈ Set_spread l ↔ x ∈ l.
Proof.
  unfold Set_spread. rewrite foldl_set_insert_elem, elem_of_nil. tauto.
Qed.

Lemma Set_spread_NoDup l : NoDup (Set_spread l).
Proof. apply foldl_set_insert_NoDup, NoDup_nil_2. Qed.

Lemma round_div1000_nearest d :
  1000 * round_div1000 d - 500 ≤ d < 1000 * round_div1000 d + 500.
Proof.
  unfold round_div1000.
  pose proof (Z.div_mod (d + 500) 1000 ltac:(lia)).
  pose proof (Z.mod_pos_bound (d + 500) 1000 ltac:(lia)). lia.
Qed.

(** What the re-mapping of the cached segments does to the processor: it
    only draws identifiers. Every row it builds ends when it starts. *)
Lemma mapM_aggregated_segment w ctid callSid segs p :
  ∃ rows p',
    mapM (aggregated_segment w ctid callSid) segs p = (Normal rows, p') ∧
    db p' = db p ∧ queues p' = queues p ∧
    activeCallTranscripts p' = activeCallTranscripts p ∧
    length rows = length segs ∧
    Forall2 (λ s row,
               seg_start_time row = ev_timestamp (cached_data s) ∧
               seg_end_time row = Some (ev_timestamp (cached_data s)) ∧
               seg_source_type row = ev_type (cached_data s) ∧
               seg_call_transcript_id row = Some ctid)
            segs rows.
Proof.
  revert p. induction segs as [|s segs IH]; intros p.
  - exists [], p. simpl. repeat split; constructor.
  - destruct (IH (set_uuidState N.succ p))
      as (rows & p' & Hrun & Hdb & Hq & Hc & Hlen & Hall).
    eexists (_ :: rows), p'. simpl.
    erewrite bind_normal by reflexivity.
    erewrite bind_normal by exact Hrun.
    simpl.
    repeat split; try done.
    + by rewrite Hlen.
    + by constructor.
Qed.

(** C5, as stated, fails on the duration: a call that starts at 0 ms and
    ends at 1500 ms gets the duration 2, not the difference of its end and
    start times. *)
Lemma call_duration_counterexample :
  ¬ (∀ w batchData p e ct,
       storeAccepts w = true →
       endTime (batch_callData batchData) = Some e →
       last (call_transcripts (db (processBatchCallComplete w batchData p).2))
       = Some ct →
       ct_duration ct = Some (e - startTime (batch_callData batchData))).
Proof.
  intros H.
  specialize (H (world_at 2000) quick_batch
                (initialize (new_TranscriptProcessor 0)) 1500
                (mkCallTranscript 0 (js "C1") None None 0 None (Some 1500)
                   (Some 2) (Some (js "NORMAL_CLEARING")) 1 (js "bn-IN")
                   (js "completed") 2000)
                eq_refl eq_refl eq_refl).
  discriminate H.
Qed.

(** C5, amended: processing the aggregation data of a call whose end time is
    set, with the store accepting writes, hands the store exactly one
    call-transcript record; its duration is the difference of end and start
    time in milliseconds divided by 1000 and rounded to the nearest whole
    second (a tie going up), its languages field is the comma-joined list of
    the distinct languages of the cached segments, its segment count is the
    number of cached segments and its status is ['completed']. *)
Theorem processBatchCallComplete_record w batchData p e :
  storeAccepts w = true →
  endTime (batch_callData batchData) = Some e →
  let r := processBatchCallComplete w batchData p in
  let callData := batch_callData batchData in
  let segs := batch_transcriptSegments batchData in
  ∃ ct d langs,
    r.1 = Normal tt ∧
    call_transcripts (db r.2) = call_transcripts (db p) ++ [ct] ∧
    ct_call_sid ct = batch_callSid batchData ∧
    ct_duration ct = Some d ∧
    d = (e - startTime callData + 500) / 1000 ∧
    1000 * d - 500 ≤ e - startTime callData < 1000 * d + 500 ∧
    ct_languages ct = join (js ",") langs ∧
    NoDup langs ∧
    (∀ x, x ∈ langs ↔ ∃ s, s ∈ segs ∧ cached_language s = x) ∧
    ct_total_segments ct = length segs ∧
    ct_status ct = js "completed".
Proof.
  intros Hstore Hend r callData segs.
  set (ct :=
    mkCallTranscript (uuidState p) (batch_callSid batchData)
      (callerNumber callData) (destinationNumber callData) (startTime callData)
      (match answerTime callData with
       | Some t => if t =? 0 then None else Some t
       | None => None
       end)
      (endTime callData) (call_duration callData) (hangupCause callData)
      (length segs)
      (join (js ",") (Set_spread (map cached_language segs)))
      (js "completed") (now w)).
  exists ct, (round_div1000 (e - startTime callData)),
    (Set_spread (map cached_language segs)).
  assert (r.1 = Normal tt ∧
          call_transcripts (db r.2) = call_transcripts (db p) ++ [ct])
    as [Hret Hdb].
  { subst r. unfold processBatchCallComplete, rethrowing, try_catch.
    erewrite bind_normal by reflexivity. cbn beta.
    fold callData segs. fold ct.
    erewrite bind_normal
      by (unfold insertCallTranscript; rewrite Hstore; reflexivity).
    destruct (mapM_aggregated_segment w (ct_id ct) (batch_callSid batchData)
                segs (set_db (λ d, mkStore (call_transcripts d ++ [ct])
                                     (transcript_segments d) (audio_events d))
                        (set_uuidState N.succ p)))
      as (rows & p' & Hrun & Hdb' & _ & _ & Hlen & _).
    destruct segs as [|s segs'] eqn:Hsegs; [done|].
    unfold when. change (0 <? length (s :: segs'))%nat with true. cbv iota.
    erewrite bind_normal by exact Hrun.
    unfold insertTranscriptSegments. rewrite Hstore.
    destruct rows as [|row rows]; [discriminate Hlen|].
    simpl. by rewrite Hdb'. }
  repeat split; try done.
  - simpl. unfold call_duration. subst callData. by rewrite Hend.
  - apply round_div1000_nearest.
  - apply round_div1000_nearest.
  - apply Set_spread_NoDup.
  - rewrite Set_spread_elem, list_elem_of_fmap.
    intros (s & -> & Hs). by exists s.
  - rewrite Set_spread_elem, list_elem_of_fmap.
    intros (s & Hs & <-). by exists s.
Qed.

(** C5, at a call of 1500 ms: the record carries the duration 2. *)
Lemma processBatchCallComplete_record_witness :
  ∃ ct, last (call_transcripts
                (db (processBatchCallComplete (world_at 2000) quick_batch
                       (initialize (new_TranscriptProcessor 0))).2))
        = Some ct ∧ ct_duration ct = Some 2.
Proof.
  destruct (processBatchCallComplete_record (world_at 2000) quick_batch
              (initialize (new_TranscriptProcessor 0)) 1500 eq_refl eq_refl)
    as (ct & d & langs & _ & Hdb & _ & Hd & Hval & _).
  exists ct. rewrite Hdb. split.
  - by rewrite last_snoc.
  - rewrite Hd, Hval. reflexivity.
Defined.

(* ===================================================================== *)
(** ** Frame properties of the listener's bookkeeping *)
(* ===================================================================== *)

(** Closes a goal [preserves I m] for a computation built from the monad
    operations, when [I] only reads fields that [m] does not write. *)
Ltac frame_step :=
  lazymatch goal with
  | |- preserves _ (mret _) => apply preserves_ret
  | |- preserves _ (gets _) => apply preserves_gets
  | |- preserves _ (throw _) => apply preserves_throw
  | |- preserves _ (when _ _) => apply preserves_when
  | |- preserves _ (try_catch _ _) => apply preserves_try_catch; [|intros ?]
  | |- preserves _ (mbind _ _) => apply preserves_bind; [|intros ?]
  | |- preserves _ (modify _) =>
      apply preserves_modify; intros []; simpl; tauto
  | |- preserves _ (match ?x with _ => _ end) => destruct x
  end.

Ltac frame := repeat frame_step.

Lemma trackEvent_preserves (I : FreeSWITCHListener → Prop) w eventType :
  (∀ l f, I l → I (set_eventCounts f l)) →
  (∀ l t, I l → I (set_lastStatsReport t l)) →
  preserves I (trackEvent w eventType).
Proof.
  intros H1 H2. unfold trackEvent, reportStats.
  apply preserves_bind; [apply preserves_modify; auto|intros ?].
  apply preserves_bind; [apply preserves_gets|intros ?].
  apply preserves_when.
  apply preserves_bind; apply preserves_modify || intros ?; auto.
  apply preserves_modify; auto.
Qed.

Lemma broadcast_preserves (I : FreeSWITCHListener → Prop) callSid data :
  (∀ l f, I l → I (set_broadcastCallback f l)) →
  preserves I (broadcast callSid data).
Proof. intros H. apply preserves_modify. auto. Qed.

Lemma trackEventProcessing_preserves (I : FreeSWITCHListener → Prop) w n t :
  (∀ l f, I l → I (set_performanceMonitor f l)) →
  preserves I (trackEventProcessing w n t).
Proof. intros H. apply preserves_modify. auto. Qed.

Lemma trackEventProcessing_returns w n t : returns (trackEventProcessing w n t).
Proof. apply returns_modify. Qed.

Lemma broadcast_returns callSid data : returns (broadcast callSid data).
Proof. apply returns_modify. Qed.

#[export] Hint Resolve trackEvent_returns trackEventProcessing_returns
  broadcast_returns trackProcessedEvent_returns on_processor_returns
  : js_returns.

(* ===================================================================== *)
(** ** Recognition events and the active-call table *)
(* ===================================================================== *)

Lemma queue_add_ok w lane name data opts p q :
  queues p !! lane = Some q →
  brokerAccepts w = true →
  queue_add w lane name data opts p
  = (Normal tt,
     set_queues (<[lane := mkBullQueue (waiting q ++ [mkJob name data opts 0])
                             (completed q) (failed q)]>) p).
Proof. intros Hq Hb. unfold queue_add. by rewrite Hq, Hb. Qed.

Lemma processSTTEvent_returns w eventData : returns (processSTTEvent w eventData).
Proof. unfold processSTTEvent. eauto with js_returns. Qed.

Lemma processTTSEvent_returns w eventData : returns (processTTSEvent w eventData).
Proof. unfold processTTSEvent. eauto with js_returns. Qed.

Lemma processAudioEvent_returns w eventData :
  returns (processAudioEvent w eventData).
Proof. unfold processAudioEvent. eauto with js_returns. Qed.

Lemma processRecordingComplete_returns w recordingData :
  returns (processRecordingComplete w recordingData).
Proof. unfold processRecordingComplete. eauto with js_returns. Qed.

#[export] Hint Resolve processSTTEvent_returns processTTSEvent_returns
  processAudioEvent_returns processRecordingComplete_returns
  processCallComplete_returns : js_returns.

Lemma handleDetectedSpeech_returns parseFloat w event :
  returns (handleDetectedSpeech parseFloat w event).
Proof.
  unfold handleDetectedSpeech.
  destruct (as_truthy (getHeader event "Speech-Result"));
    destruct (as_truthy (extractCallSid event)); eauto 10 with js_returns.
Qed.

Lemma processSTTEvent_ok w eventData p q :
  queues p !! "stt" = Some q →
  brokerAccepts w = true →
  let r := processSTTEvent w eventData p in
  r.1 = Normal tt ∧
  queues r.2
  = <["stt" := mkBullQueue
                 (waiting q ++ [mkJob (js "stt-event") (SttJob eventData)
                                  (mkJobOpts 10 3 None (exponential 1000)) 0])
                 (completed q) (failed q)]> (queues p) ∧
  activeCallTranscripts r.2
  = addToCallCache w (ev_callSid eventData) eventData (activeCallTranscripts p) ∧
  db r.2 = db p.
Proof.
  intros Hq Hb r. split; [apply returns_unit, processSTTEvent_returns|].
  subst r. unfold processSTTEvent, try_catch.
  erewrite bind_normal by (by apply queue_add_ok).
  erewrite bind_normal by reflexivity.
  match goal with |- context [trackProcessedEvent w ?n ?s] =>
    pose proof (trackProcessedEvent_frame w n s) as (H1 & H2 & H3);
    pose proof (returns_unit _ s (trackProcessedEvent_returns w n)) as Hret;
    destruct (trackProcessedEvent w n s) as [c p']
  end.
  simpl in *. subst c. simpl. by rewrite H1, H2, H3.
Qed.




(* ===================================================================== *)
(** ** The per-call cache keeps the last 100 events *)
(* ===================================================================== *)

(** The array a cache entry holds after [addToCallCache]. *)
Lemma addToCallCache_lookup w callSid eventData m :
  let pushed := default [] (m !! callSid)
                ++ [mkCachedEvent eventData (now w)] in
  addToCallCache w callSid eventData m !! callSid
  = Some (if (CACHE_LIMIT <? length pushed)%nat
          then drop (length pushed - CACHE_LIMIT) pushed else pushed).
Proof.
  unfold addToCallCache. simpl. rewrite lookup_insert_eq.
  destruct (m !! callSid) eqn:Hm; simpl.
  - by rewrite Hm.
  - by rewrite lookup_insert_eq.
Qed.

Lemma addToCallCache_lookup_ne w callSid eventData m other :
  callSid ≠ other →
  addToCallCache w callSid eventData m !! other = m !! other.
Proof.
  intros Hne. unfold addToCallCache. simpl.
  rewrite lookup_insert_ne by done.
  destruct (m !! callSid); [done|]. by rewrite lookup_insert_ne.
Qed.

Lemma addToCallCache_bounded w callSid eventData m :
  cache_bounded m → cache_bounded (addToCallCache w callSid eventData m).
Proof.
  intros Hm other cache. destruct (decide (callSid = other)) as [<-|Hne].
  - rewrite addToCallCache_lookup. intros [= <-].
    destruct (_ <? _)%nat eqn:Hlt.
    + rewrite length_drop. apply Nat.ltb_lt in Hlt. unfold CACHE_LIMIT in *. lia.
    + apply Nat.ltb_ge in Hlt. done.
  - rewrite addToCallCache_lookup_ne by done. apply Hm.
Qed.

(** Adding to a cache that holds 100 events drops the oldest one. *)
Lemma addToCallCache_full w callSid eventData m cache :
  m !! callSid = Some cache →
  length cache = CACHE_LIMIT →
  addToCallCache w callSid eventData m !! callSid
  = Some (drop 1 cache ++ [mkCachedEvent eventData (now w)]).
Proof.
  intros Hm Hlen. rewrite addToCallCache_lookup, Hm. simpl.
  rewrite length_app, Hlen. simpl.
  replace (CACHE_LIMIT <? CACHE_LIMIT + 1)%nat with true
    by (symmetry; apply Nat.ltb_lt; lia).
  replace (CACHE_LIMIT + 1 - CACHE_LIMIT)%nat with 1%nat by lia.
  f_equal. rewrite drop_app_le; [done|]. rewrite Hlen. unfold CACHE_LIMIT. lia.
Qed.

Lemma preserves_bind_gets {S A B} (I : S → Prop) (f : S → A) (k : A → M S B) :
  (∀ s, I s → I (k (f s) s).2) → preserves I (gets f ≫= k).
Proof. intros H s Hs. by apply H. Qed.

(** Reduces field reads of an updated processor, and nothing else. *)
Ltac proj_p :=
  cbn [db uuidState queues isInitialized activeCallTranscripts
       processedEvents lastPerformanceReport set_db set_uuidState set_queues
       set_activeCallTranscripts set_processedEvents
       set_lastPerformanceReport fst snd] in *.

Lemma queue_add_bounded w lane name data opts :
  job_bounded (mkJob name data opts 0) →
  preserves bounded (queue_add w lane name data opts).
Proof.
  intros Hjob p (Hc & Hq & Hs). unfold queue_add.
  destruct (queues p !! lane) as [q|] eqn:Hlane; [|done].
  destruct (brokerAccepts w); [|done].
  unfold bounded. proj_p. split; [done|]. split; [|done].
  intros lane' q'. destruct (decide (lane = lane')) as [<-|Hne].
  - rewrite lookup_insert_eq. intros [= <-]. cbn [waiting].
    apply Forall_app. split; [by eapply Hq|]. by constructor.
  - rewrite lookup_insert_ne by done. apply Hq.
Qed.

Lemma trackProcessedEvent_bounded w eventType :
  preserves bounded (trackProcessedEvent w eventType).
Proof. unfold trackProcessedEvent, reportPerformance, bounded. frame. Qed.

Lemma cache_add_bounded w callSid eventData :
  preserves bounded
    (modify (set_activeCallTranscripts (addToCallCache w callSid eventData))).
Proof.
  apply preserves_modify. intros p (Hc & Hq & Hs).
  split; [|done]. simpl. by apply addToCallCache_bounded.
Qed.

Lemma processTTSEvent_bounded w eventData :
  preserves bounded (processTTSEvent w eventData).
Proof.
  unfold processTTSEvent.
  apply preserves_try_catch; [|intros ?; apply preserves_ret].
  apply preserves_bind; [by apply queue_add_bounded|intros ?].
  apply preserves_bind; [apply cache_add_bounded|intros ?].
  apply trackProcessedEvent_bounded.
Qed.

Lemma processSTTEvent_bounded w eventData :
  preserves bounded (processSTTEvent w eventData).
Proof.
  unfold processSTTEvent.
  apply preserves_try_catch; [|intros ?; apply preserves_ret].
  apply preserves_bind; [by apply queue_add_bounded|intros ?].
  apply preserves_bind; [apply cache_add_bounded|intros ?].
  apply trackProcessedEvent_bounded.
Qed.

Lemma processAudioEvent_bounded w eventData :
  preserves bounded (processAudioEvent w eventData).
Proof.
  unfold processAudioEvent.
  apply preserves_try_catch; [|intros ?; apply preserves_ret].
  apply preserves_bind; [by apply queue_add_bounded|intros ?].
  apply trackProcessedEvent_bounded.
Qed.

Lemma processRecordingComplete_bounded w recordingData :
  preserves bounded (processRecordingComplete w recordingData).
Proof.
  unfold processRecordingComplete.
  apply preserves_try_catch; [|intros ?; apply preserves_ret].
  apply preserves_bind; [by apply queue_add_bounded|intros ?].
  apply trackProcessedEvent_bounded.
Qed.

Lemma cache_delete_bounded callSid :
  preserves bounded (modify (set_activeCallTranscripts (delete callSid))).
Proof.
  apply preserves_modify. intros p (Hc & Hq & Hs).
  split; [|done]. simpl. intros other cache Hlook.
  apply lookup_delete_Some in Hlook as [_ Hlook]. by eapply Hc.
Qed.

Lemma processCallComplete_bounded w callData :
  preserves bounded (processCallComplete w callData).
Proof.
  unfold processCallComplete.
  apply preserves_try_catch; [|intros ?; apply preserves_ret].
  apply preserves_bind_gets. intros p Hp.
  assert (preserves bounded
            (modify (set_activeCallTranscripts (delete (callSid callData))) ;;
             trackProcessedEvent w "CALL_COMPLETE")) as Htail.
  { apply preserves_bind; [apply cache_delete_bounded|intros ?].
    apply trackProcessedEvent_bounded. }
  destruct (activeCallTranscripts p !! callSid callData) as [[|e cache]|] eqn:Hc.
  - apply preserves_bind; [apply preserves_ret|by intros ?|done].
  - apply preserves_bind; [|by intros ?|done].
    apply queue_add_bounded. unfold job_bounded. simpl.
    destruct Hp as (Hcache & _). by apply (Hcache _ _ Hc).
  - apply preserves_bind; [apply preserves_ret|by intros ?|done].
Qed.

Lemma uuidv4_bounded : preserves bounded uuidv4.
Proof. by intros p Hp. Qed.

Lemma insertTranscriptSegment_bounded w segment :
  preserves bounded (insertTranscriptSegment w segment).
Proof.
  unfold insertTranscriptSegment. destruct (storeAccepts w); [|apply preserves_throw].
  apply preserves_modify. intros p (Hc & Hq & Hs). by repeat split.
Qed.

Lemma insertTranscriptSegments_bounded w segments :
  preserves bounded (insertTranscriptSegments w segments).
Proof.
  unfold insertTranscriptSegments. destruct segments; [apply preserves_ret|].
  destruct (storeAccepts w); [|apply preserves_throw].
  apply preserves_modify. intros p (Hc & Hq & Hs). by repeat split.
Qed.

Lemma insertAudioEvent_bounded w audioEvent :
  preserves bounded (insertAudioEvent w audioEvent).
Proof.
  unfold insertAudioEvent. destruct (storeAccepts w); [|apply preserves_throw].
  apply preserves_modify. intros p (Hc & Hq & Hs). by repeat split.
Qed.

Lemma insertCallTranscript_bounded w callTranscript :
  (ct_total_segments callTranscript ≤ CACHE_LIMIT)%nat →
  preserves bounded (insertCallTranscript w callTranscript).
Proof.
  intros Hct. unfold insertCallTranscript.
  destruct (storeAccepts w); [|apply preserves_throw].
  apply preserves_modify. intros p (Hc & Hq & Hs).
  split; [done|]. split; [done|].
  unfold store_bounded. proj_p. cbn [call_transcripts].
  apply Forall_app. split; [done|]. by constructor.
Qed.

Lemma rethrowing_preserves {S A} (I : S → Prop) (m : M S A) :
  preserves I m → preserves I (rethrowing m).
Proof.
  intros Hm. apply preserves_try_catch; [done|]. intros e.
  apply preserves_throw.
Qed.

Lemma processTTSJob_bounded w eventData :
  preserves bounded (processTTSJob w eventData).
Proof.
  apply rethrowing_preserves.
  apply preserves_bind; [apply uuidv4_bounded|intros ?].
  apply preserves_bind; [apply insertTranscriptSegment_bounded|intros ?].
  apply preserves_ret.
Qed.

Lemma processSTTJob_bounded w eventData :
  preserves bounded (processSTTJob w eventData).
Proof.
  apply rethrowing_preserves.
  apply preserves_bind; [apply uuidv4_bounded|intros ?].
  apply preserves_bind; [apply insertTranscriptSegment_bounded|intros ?].
  apply preserves_ret.
Qed.

Lemma processAudioJob_bounded w eventData :
  preserves bounded (processAudioJob w eventData).
Proof.
  apply rethrowing_preserves.
  apply preserves_bind; [apply uuidv4_bounded|intros ?].
  apply preserves_bind; [apply insertAudioEvent_bounded|intros ?].
  apply preserves_ret.
Qed.

Lemma recording_segments_bounded w recordingData results segmentIndex segments :
  preserves bounded
    (recording_segments w recordingData results segmentIndex segments).
Proof.
  revert segmentIndex segments.
  induction results as [|result rest IH]; intros segmentIndex segments; simpl.
  - apply preserves_ret.
  - destruct (res_alternatives result) as [|alternative ?];
      [apply preserves_throw|].
    destruct (_ && _); [|apply IH].
    apply preserves_bind; [apply uuidv4_bounded|intros ?]. apply IH.
Qed.

Lemma processRecordingJob_bounded w recordingData :
  preserves bounded (processRecordingJob w recordingData).
Proof.
  apply rethrowing_preserves.
  destruct (negb _); [apply preserves_ret|].
  destruct (negb _); [apply preserves_ret|].
  destruct (negb _); [apply preserves_throw|].
  destruct (recognize w) as [[[|result results]|]|e];
    try apply preserves_ret; try apply preserves_throw.
  apply preserves_bind; [apply recording_segments_bounded|intros segments].
  apply preserves_bind; [|intros ?; apply preserves_ret].
  apply preserves_when, insertTranscriptSegments_bounded.
Qed.

Lemma mapM_aggregated_segment_bounded w ctid callSid segs :
  preserves bounded (mapM (aggregated_segment w ctid callSid) segs).
Proof.
  intros p (Hc & Hq & Hs).
  destruct (mapM_aggregated_segment w ctid callSid segs p)
    as (rows & p' & -> & Hdb & Hqs & Hcache & _).
  unfold bounded. cbn [snd]. by rewrite Hdb, Hqs, Hcache.
Qed.

Lemma processBatchCallComplete_bounded w batchData :
  (length (batch_transcriptSegments batchData) ≤ CACHE_LIMIT)%nat →
  preserves bounded (processBatchCallComplete w batchData).
Proof.
  intros Hlen. apply rethrowing_preserves.
  apply preserves_bind; [apply uuidv4_bounded|intros id].
  apply preserves_bind; [by apply insertCallTranscript_bounded|intros ?].
  apply preserves_when.
  apply preserves_bind; [apply mapM_aggregated_segment_bounded|intros ?].
  apply insertTranscriptSegments_bounded.
Qed.

Lemma run_processor_bounded w job :
  job_bounded job → preserves bounded (run_processor w job).
Proof.
  unfold run_processor, job_bounded.
  destruct (job_data job) as [e|e|a|r|b]; intros Hjob.
  - apply processTTSJob_bounded.
  - apply processSTTJob_bounded.
  - apply processAudioJob_bounded.
  - apply processRecordingJob_bounded.
  - apply rethrowing_preserves.
    apply preserves_bind; [|intros ?; apply preserves_ret].
    destruct (bool_decide _); [|apply preserves_ret].
    by apply processBatchCallComplete_bounded.
Qed.

Lemma work_bounded w lane i : preserves bounded (work w lane i).
Proof.
  intros p Hp. unfold work.
  destruct (queues p !! lane) as [q|] eqn:Hq; [|done].
  destruct (waiting q !! i) as [job|] eqn:Hjob; [|done].
  assert (Forall job_bounded (waiting q)) as Hwq
    by (destruct Hp as (_ & Hqs & _); by eapply Hqs).
  assert (job_bounded job) as Hjb.
  { eapply Forall_forall; [exact Hwq|]. by eapply list_elem_of_lookup_2. }
  pose proof (run_processor_bounded w job Hjb p Hp) as Hp'.
  destruct (run_processor w job p) as [r p']. cbn [snd] in *.
  destruct Hp' as (Hc & Hqs & Hs).
  assert (Forall job_bounded (waiting (default q (queues p' !! lane)))) as Hwq'.
  { destruct (queues p' !! lane) as [q'|] eqn:Hq'; [by eapply Hqs|done]. }
  set (q' := default q (queues p' !! lane)) in *.
  assert (Forall job_bounded (delete i (waiting q'))) as Hrest
    by (by apply Forall_delete).
  unfold bounded. proj_p. split; [done|]. split; [|done].
  intros lane' q''. destruct (decide (lane = lane')) as [<-|Hne].
  - rewrite lookup_insert_eq. intros [= <-].
    destruct r as [res|e]; [done|].
    destruct (_ <? _)%nat; [|done].
    cbn [waiting]. apply Forall_app. split; [done|].
    constructor; [|done]. exact Hjb.
  - rewrite lookup_insert_ne by done. apply Hqs.
Qed.

(* ===================================================================== *)
(** ** Invariants of a run *)
(* ===================================================================== *)

(** A property [I] of the listener that the bookkeeping of the event
    handlers cannot break, over a property [J] of the processor that the
    processor's own methods keep, holds along every run. *)
Section RunInvariant.

Variable parseFloat : option jsstring → jsnum.
Variable I : FreeSWITCHListener → Prop.
Variable J : TranscriptProcessor → Prop.

Hypothesis I_processor : ∀ l, I l → J (transcriptProcessor l).
Hypothesis I_set_processor :
  ∀ l p, I l → J p → I (set_transcriptProcessor p l).
Hypothesis I_eventCounts : ∀ l f, I l → I (set_eventCounts f l).
Hypothesis I_lastStatsReport : ∀ l t, I l → I (set_lastStatsReport t l).
Hypothesis I_broadcast : ∀ l f, I l → I (set_broadcastCallback f l).
Hypothesis I_monitor : ∀ l f, I l → I (set_performanceMonitor f l).
Hypothesis I_activeCalls : ∀ l f, I l → I (set_activeCalls f l).
Hypothesis I_connection : ∀ c, preserves I (on_connection c).

Hypothesis J_tts : ∀ w e, preserves J (processTTSEvent w e).
Hypothesis J_stt : ∀ w e, preserves J (processSTTEvent w e).
Hypothesis J_audio : ∀ w e, preserves J (processAudioEvent w e).
Hypothesis J_recording : ∀ w r, preserves J (processRecordingComplete w r).
Hypothesis J_complete : ∀ w c, preserves J (processCallComplete w c).
Hypothesis J_work : ∀ w lane i, preserves J (work w lane i).

Lemma on_processor_preserves {A} (m : M TranscriptProcessor A) :
  preserves J m → preserves I (on_processor m).
Proof. intros Hm. by apply preserves_zoom with J. Qed.

(** One step of a handler proof: sequencing, branching, and the
    bookkeeping operations. *)
Ltac handler_step :=
  lazymatch goal with
  | |- preserves _ (trackEvent _ _) => apply trackEvent_preserves; by auto
  | |- preserves _ (broadcast _ _) => apply broadcast_preserves; by auto
  | |- preserves _ (trackEventProcessing _ _ _) =>
      apply trackEventProcessing_preserves; by auto
  | |- preserves _ (on_processor _) => apply on_processor_preserves; by auto
  | |- preserves _ (mret _) => apply preserves_ret
  | |- preserves _ (gets _) => apply preserves_gets
  | |- preserves _ (when _ _) => apply preserves_when
  | |- preserves _ (modify _) => apply preserves_modify; by auto
  | |- preserves _ (mbind _ _) => apply preserves_bind; [|intros ?]
  | |- preserves _ (match ?x with _ => _ end) => destruct x
  end.

Lemma on_event_preserves w name event :
  preserves I (on_event parseFloat w name event).
Proof.
  unfold on_event.
  repeat match goal with
         | |- preserves _ (if String.eqb ?a ?b then _ else _) =>
             destruct (String.eqb a b)
         end.
  - unfold handleChannelCreate. repeat handler_step.
  - unfold handleChannelAnswer. repeat handler_step.
  - unfold handleChannelHangup, listener_processCallComplete.
    repeat handler_step.
  - unfold handleChannelExecute, addCallEvent. repeat handler_step.
  - unfold handleChannelExecuteComplete. repeat handler_step.
  - unfold handleDetectedSpeech. repeat handler_step.
  - unfold handlePlaybackStart. repeat handler_step.
  - unfold handlePlaybackStop. repeat handler_step.
  - unfold handleRecordStart, addCallEvent. repeat handler_step.
  - unfold handleRecordStop. repeat handler_step.
  - apply preserves_ret.
Qed.

Lemma step_preserves w input : preserves I (step parseFloat w input).
Proof.
  destruct input as [name event|c|lane i]; simpl.
  - apply on_event_preserves.
  - apply I_connection.
  - apply preserves_bind; [|intros ?; apply preserves_ret].
    by apply on_processor_preserves.
Qed.

Lemma run_preserves trace : preserves I (run parseFloat trace).
Proof.
  induction trace as [|[w input] rest IH]; simpl.
  - apply preserves_ret.
  - apply preserves_bind; [apply step_preserves|by intros ?].
Qed.

End RunInvariant.

Lemma on_connection_processor c l :
  transcriptProcessor (on_connection c l).2 = transcriptProcessor l.
Proof.
  assert (preserves (λ x, transcriptProcessor x = transcriptProcessor l)
            (on_connection c)) as Hp.
  { unfold on_connection, reconnect_timer, connect, handleDisconnection.
    destruct c as [| |i outcome]; frame. }
  by apply Hp.
Qed.

Lemma bounded_new t : bounded (new_TranscriptProcessor t).
Proof.
  split; [|split].
  - intros callSid cache. cbn [new_TranscriptProcessor activeCallTranscripts].
    by rewrite lookup_empty.
  - intros lane q. cbn [new_TranscriptProcessor queues].
    by rewrite lookup_empty.
  - constructor.
Qed.

Lemma bounded_initialize p : bounded p → bounded (initialize p).
Proof.
  intros (Hc & Hq & Hs). split; [done|]. split; [|done].
  intros lane q. unfold initialize. cbn [queues].
  rewrite !lookup_insert.
  repeat case_decide; try (intros [= <-]; constructor). apply Hq.
Qed.

Lemma run_bounded parseFloat trace l :
  bounded (transcriptProcessor l) →
  bounded (transcriptProcessor (run parseFloat trace l).2).
Proof.
  apply (run_preserves parseFloat (λ x, bounded (transcriptProcessor x)) bounded);
    try done.
  - intros c x Hx. by rewrite on_connection_processor.
  - apply processTTSEvent_bounded.
  - apply processSTTEvent_bounded.
  - apply processAudioEvent_bounded.
  - apply processRecordingComplete_bounded.
  - apply processCallComplete_bounded.
  - apply work_bounded.
Qed.

(** C9: a per-call cache never holds more than 100 events, and adding to a
    cache that holds 100 drops its oldest entry. Hence, in every state the
    service reaches from its start (with the lanes created or not), every
    cache holds at most 100 events, every aggregation job waiting on a lane
    carries at most 100 segments, and every call-transcript record handed to
    the store reports a total segment count of at most 100. *)
Theorem call_cache_keeps_last_100
    parseFloat trace (initialized : bool) t0 monitor withBroadcast
    maxAttempts delay t1 :
  let p0 := if initialized then initialize (new_TranscriptProcessor t0)
            else new_TranscriptProcessor t0 in
  let l0 := new_FreeSWITCHListener p0 monitor withBroadcast maxAttempts
              delay t1 in
  let p := transcriptProcessor (run parseFloat trace l0).2 in
  (∀ callSid cache,
     activeCallTranscripts p !! callSid = Some cache →
     (length cache ≤ 100)%nat) ∧
  (∀ lane q job b,
     queues p !! lane = Some q → job ∈ waiting q →
     job_data job = BatchJob b →
     (length (batch_transcriptSegments b) ≤ 100)%nat) ∧
  (∀ ct, ct ∈ call_transcripts (db p) → (ct_total_segments ct ≤ 100)%nat) ∧
  (∀ w callSid eventData m cache,
     m !! callSid = Some cache → length cache = 100%nat →
     addToCallCache w callSid eventData m !! callSid
     = Some (drop 1 cache ++ [mkCachedEvent eventData (now w)])) ∧
  (∀ w callSid eventData m cache,
     m !! callSid = Some cache → (length cache < 100)%nat →
     addToCallCache w callSid eventData m !! callSid
     = Some (cache ++ [mkCachedEvent eventData (now w)])).
Proof.
  intros p0 l0 p.
  assert (bounded p) as (Hc & Hq & Hs).
  { apply run_bounded. subst l0 p0. cbn [new_FreeSWITCHListener transcriptProcessor].
    destruct initialized; [apply bounded_initialize|]; apply bounded_new. }
  split; [exact Hc|]. split; [|split; [|split]].
  - intros lane q job b Hlane Hjob Hdata.
    specialize (Hq lane q Hlane).
    eapply Forall_forall in Hq; [|exact Hjob].
    unfold job_bounded in Hq. by rewrite Hdata in Hq.
  - intros ct Hct. eapply Forall_forall in Hs; [|exact Hct]. exact Hs.
  - intros w callSid eventData m cache Hm Hlen.
    by apply addToCallCache_full.
  - intros w callSid eventData m cache Hm Hlen.
    rewrite addToCallCache_lookup, Hm. cbn [default from_option id].
    rewrite length_app. cbn [length].
    replace (CACHE_LIMIT <? length cache + 1)%nat with false; [done|].
    symmetry. apply Nat.ltb_ge. unfold CACHE_LIMIT. lia.
Qed.

(** C9, at a call with 101 synthesis events: the record reports 100. *)
Lemma call_cache_keeps_last_100_witness :
  (∀ ct,
     ct ∈ call_transcripts
            (db (transcriptProcessor (run no_parse long_call idle_listener).2)) →
     (ct_total_segments ct ≤ 100)%nat) ∧
  ct_total_segments
  <$> call_transcripts
        (db (transcriptProcessor (run no_parse long_call idle_listener).2))
  = [100%nat].
Proof.
  split.
  - exact (proj1 (proj2 (proj2
      (call_cache_keeps_last_100 no_parse long_call true 0 None true
         10 5000 0)))).
  - vm_compute. reflexivity.
Defined.

(* ===================================================================== *)
(** ** Reconnection *)
(* ===================================================================== *)

Lemma handleDisconnection_below l :
  reconnectAttempts l < maxReconnectAttempts l →
  handleDisconnection l
  = (Normal tt,
     set_timers (λ t, t ++ [reconnectDelay l]) (set_reconnectAttempts Z.succ l)).
Proof.
  intros Hlt. unfold handleDisconnection. unfold_m.
  destruct (Z.leb_spec (maxReconnectAttempts l) (reconnectAttempts l)); [lia|].
  by destruct l.
Qed.

Lemma handleDisconnection_ceiling l :
  maxReconnectAttempts l ≤ reconnectAttempts l →
  handleDisconnection l
  = (Normal tt, set_emitted (λ e, e ++ ["max_reconnects_reached"]) l).
Proof.
  intros Hge. unfold handleDisconnection. unfold_m.
  destruct (Z.leb_spec (maxReconnectAttempts l) (reconnectAttempts l)); [done|lia].
Qed.

Lemma handleDisconnection_inv mx d :
  preserves (reconnect_inv mx d) handleDisconnection.
Proof.
  intros l (Hmx & Hd & Hle & Ht).
  destruct (Z.lt_ge_cases (reconnectAttempts l) (maxReconnectAttempts l)).
  - rewrite handleDisconnection_below by done. destruct l.
    unfold reconnect_inv. simpl in *.
    split; [done|]. split; [done|]. split; [lia|].
    apply Forall_app. split; [done|]. by constructor.
  - rewrite handleDisconnection_ceiling by done. by destruct l.
Qed.

Lemma handleDisconnection_failed mx a :
  mx ≤ a → preserves (reconnect_failed mx a) handleDisconnection.
Proof.
  intros Hge l (Hmx & Ha & Ht).
  rewrite handleDisconnection_ceiling by lia. by destruct l.
Qed.

Lemma on_connection_inv mx d c :
  preserves (reconnect_inv mx d) (on_connection c).
Proof.
  pose proof (handleDisconnection_inv mx d) as HhD.
  assert (∀ b, preserves (reconnect_inv mx d) (modify (set_isConnected b)))
    as Hconn by (intros b; apply preserves_modify; by intros []).
  destruct c as [| |i outcome]; simpl.
  - by apply preserves_bind.
  - by apply preserves_bind.
  - unfold reconnect_timer. apply preserves_bind_gets. intros l Hl.
    destruct (timers l !! i); [|done].
    apply preserves_bind; [| |done].
    + apply preserves_modify. intros [] (? & ? & ? & ?).
      unfold reconnect_inv. simpl in *.
      split; [done|]. split; [done|]. split; [done|]. by apply Forall_delete.
    + intros _. apply preserves_try_catch; [|done].
      destruct outcome; simpl.
      * apply preserves_bind; [done|intros _].
        apply preserves_modify. intros [] (? & ? & ? & ?).
        unfold reconnect_inv. simpl in *.
        split; [done|]. split; [done|]. split; [lia|done].
      * apply preserves_bind; [done|intros _].
        apply preserves_bind; [done|intros _]. apply preserves_throw.
      * apply preserves_throw.
Qed.

Lemma on_connection_failed mx a c :
  mx ≤ a → preserves (reconnect_failed mx a) (on_connection c).
Proof.
  intros Hge. pose proof (handleDisconnection_failed mx a Hge) as HhD.
  assert (∀ b, preserves (reconnect_failed mx a) (modify (set_isConnected b)))
    as Hconn by (intros b; apply preserves_modify; by intros []).
  destruct c as [| |i outcome]; simpl.
  - by apply preserves_bind.
  - by apply preserves_bind.
  - unfold reconnect_timer. apply preserves_bind_gets. intros l Hl.
    destruct Hl as (? & ? & Ht). rewrite Ht. by rewrite lookup_nil.
Qed.

Lemma run_reconnect_inv parseFloat trace mx d :
  preserves (reconnect_inv mx d) (run parseFloat trace).
Proof.
  apply (run_preserves parseFloat (reconnect_inv mx d) (λ _, True));
    try done; try (by intros []).
  intros c. apply on_connection_inv.
Qed.

Lemma run_reconnect_failed parseFloat trace mx a :
  mx ≤ a → preserves (reconnect_failed mx a) (run parseFloat trace).
Proof.
  intros Hge.
  apply (run_preserves parseFloat (reconnect_failed mx a) (λ _, True));
    try done; try (by intros []).
  intros c. by apply on_connection_failed.
Qed.



(* ===================================================================== *)
(** ** Synthesis segments and their completion events *)
(* ===================================================================== *)

Lemma handleChannelExecuteComplete_processor w event l :
  transcriptProcessor (handleChannelExecuteComplete w event l).2
  = transcriptProcessor l.
Proof.
  assert (preserves (λ x, transcriptProcessor x = transcriptProcessor l)
            (handleChannelExecuteComplete w event)) as Hp.
  { unfold handleChannelExecuteComplete.
    destruct (as_truthy (extractCallSid event)); [|apply preserves_ret].
    apply preserves_when.
    apply preserves_bind; [by apply broadcast_preserves|intros ?].
    by apply trackEvent_preserves. }
  by apply Hp.
Qed.

(** C1 does not hold of the code. The handler of execute-complete never
    reaches the processor, so it closes no segment: with the completion
    observed before the hangup the synthesis segment stored by
    [processTTSJob] keeps its end time unset, and with or without a
    completion the segment of the aggregated record gets its own start time
    as end time. *)
Theorem tts_end_time_ignores_completion :
  (∀ w event l,
     transcriptProcessor (handleChannelExecuteComplete w event l).2
     = transcriptProcessor l) ∧
  stored_end_times (run no_parse completed_speech idle_listener).2
  = [(js "tts_generated", None); (js "tts_start", Some 2000)] ∧
  stored_end_times (run no_parse interrupted_speech idle_listener).2
  = [(js "tts_generated", None); (js "tts_start", Some 2000)].
Proof.
  split; [apply handleChannelExecuteComplete_processor|].
  split; vm_compute; reflexivity.
Qed.

(* ===================================================================== *)
(** ** No exception reaches the event source *)
(* ===================================================================== *)

Lemma handleDisconnection_returns : returns handleDisconnection.
Proof.
  unfold handleDisconnection. apply returns_bind; [apply returns_gets|].
  intros []; eauto 10 with js_returns.
Qed.

Lemma on_connection_returns c : returns (on_connection c).
Proof.
  pose proof handleDisconnection_returns.
  destruct c as [| |i outcome]; simpl; eauto with js_returns.
  unfold reconnect_timer. apply returns_bind; [apply returns_gets|].
  intros pending. destruct (pending !! i); eauto with js_returns.
Qed.

Lemma work_returns w lane i : returns (work w lane i).
Proof.
  intros p. unfold work.
  destruct (queues p !! lane) as [q|]; [|by eexists].
  destruct (waiting q !! i) as [job|]; [|by eexists].
  destruct (run_processor w job p) as [r p']. by eexists.
Qed.

Lemma on_event_returns parseFloat w name event :
  returns (on_event parseFloat w name event).
Proof.
  unfold on_event.
  repeat match goal with
         | |- returns (if String.eqb ?a ?b then _ else _) =>
             destruct (String.eqb a b)
         end; try apply returns_ret.
  - unfold handleChannelCreate.
    destruct (as_truthy _); eauto with js_returns.
  - unfold handleChannelAnswer.
    destruct (as_truthy _); [|apply returns_ret].
    apply returns_bind; [apply returns_gets|intros calls].
    destruct (calls !! _); eauto with js_returns.
  - unfold handleChannelHangup, listener_processCallComplete.
    destruct (as_truthy _); [|apply returns_ret].
    apply returns_bind; [apply returns_gets|intros calls].
    destruct (calls !! _); eauto 10 with js_returns.
  - unfold handleChannelExecute, addCallEvent.
    apply returns_bind; [|eauto with js_returns].
    destruct (as_truthy (extractCallSid event)); [|apply returns_ret].
    apply returns_bind; [|eauto with js_returns].
    destruct (as_truthy _); eauto 10 with js_returns.
  - unfold handleChannelExecuteComplete.
    destruct (as_truthy _); eauto 10 with js_returns.
  - apply handleDetectedSpeech_returns.
  - unfold handlePlaybackStart.
    destruct (as_truthy (getHeader event "Playback-File-Path"));
      destruct (as_truthy (extractCallSid event)); eauto 10 with js_returns.
  - unfold handlePlaybackStop.
    destruct (as_truthy (getHeader event "Playback-File-Path"));
      destruct (as_truthy (extractCallSid event)); eauto 10 with js_returns.
  - unfold handleRecordStart, addCallEvent.
    destruct (as_truthy (getHeader event "Record-File-Path"));
      destruct (as_truthy (extractCallSid event)); eauto 10 with js_returns.
  - unfold handleRecordStop.
    destruct (as_truthy (getHeader event "Record-File-Path"));
      destruct (as_truthy (extractCallSid event)); eauto 10 with js_returns.
Qed.

Lemma step_returns parseFloat w input : returns (step parseFloat w input).
Proof.
  destruct input as [name event|c|lane i]; simpl.
  - apply on_event_returns.
  - apply on_connection_returns.
  - apply returns_bind; [|intros; apply returns_ret].
    apply on_processor_returns, work_returns.
Qed.

(** X1: whatever the switch events, connection events and queue work of a
    run, and whatever the broker and the store answer, no exception reaches
    the event source: every step of the run returns. *)
Theorem run_never_throws parseFloat trace l :
  (run parseFloat trace l).1 = Normal tt.
Proof.
  apply returns_unit. clear l.
  induction trace as [|[w input] rest IH]; simpl.
  - apply returns_ret.
  - apply returns_bind; [apply step_returns|by intros].
Qed.

(* ===================================================================== *)
(** ** What the event handlers leave alone *)
(* ===================================================================== *)

(** Closes or reduces a goal [preserves I m] for a handler [m], when the
    bookkeeping fields cannot break [I]; what is left are the calls that may. *)
Ltac hframe :=
  repeat lazymatch goal with
  | |- preserves _ (trackEvent _ _) =>
      apply trackEvent_preserves; by intros []
  | |- preserves _ (broadcast _ _) =>
      apply broadcast_preserves; by intros []
  | |- preserves _ (trackEventProcessing _ _ _) =>
      apply trackEventProcessing_preserves; by intros []
  | |- preserves _ (mret _) => apply preserves_ret
  | |- preserves _ (gets _) => apply preserves_gets
  | |- preserves _ (when _ _) => apply preserves_when
  | |- preserves _ (modify _) => apply preserves_modify; by intros []
  | |- preserves _ (mbind _ _) => apply preserves_bind; [|intros ?]
  | |- preserves _ (match ?x with _ => _ end) => destruct x eqn:?
  end.

Ltac unfold_handlers :=
  unfold on_event, handleChannelCreate, handleChannelAnswer,
    handleChannelHangup, handleChannelExecute, handleChannelExecuteComplete,
    handleDetectedSpeech, handlePlaybackStart, handlePlaybackStop,
    handleRecordStart, handleRecordStop, addCallEvent,
    listener_processCallComplete.

(** X2: an event that carries no call id (none of the headers
    [variable_call_sid], [Unique-ID], [Core-UUID] is present and non-empty)
    is dropped by every handler: apart from the processing-time sample of
    the performance monitor, the listener and the processor stay as they
    were. *)
Theorem event_without_call_id_is_dropped parseFloat w name event l :
  truthy (getHeader event "variable_call_sid") = false →
  truthy (getHeader event "Unique-ID") = false →
  truthy (getHeader event "Core-UUID") = false →
  same_but_monitor l (on_event parseFloat w name event l).2.
Proof.
  intros H1 H2 H3.
  assert (as_truthy (extractCallSid event) = None) as Hsid.
  { unfold as_truthy, extractCallSid, js_or. rewrite H1, H2. by rewrite H3. }
  assert (preserves (λ x, same_but_monitor l x)
            (on_event parseFloat w name event)) as Hp.
  { unfold_handlers. rewrite Hsid.
    repeat match goal with
           | |- preserves _ (if String.eqb ?a ?b then _ else _) =>
               destruct (String.eqb a b)
           end; hframe. }
  by apply Hp.
Qed.

Lemma on_processor_frame {A} (I : FreeSWITCHListener → Prop)
    (m : M TranscriptProcessor A) :
  (∀ l p, I l → I (set_transcriptProcessor p l)) →
  preserves I (on_processor m).
Proof.
  intros HI l Hl. unfold on_processor, zoom.
  destruct (m (transcriptProcessor l)). by apply HI.
Qed.

Ltac hframe_p :=
  hframe;
  repeat lazymatch goal with
  | |- preserves _ (on_processor _) => apply on_processor_frame; by intros []
  end.

Ltac split_dispatch :=
  unfold on_event;
  repeat match goal with
         | |- preserves _ (if String.eqb ?a ?b then _ else _) =>
             destruct (String.eqb_spec a b)
         end.

(** X3: only five kinds of switch event reach the transcript processor:
    execute, detected speech, playback start, record stop and hangup. Every
    other event, in particular execute-complete, playback stop (which
    carries the measured duration) and record start, leaves the queues, the
    cache and the store untouched. *)
Theorem other_events_leave_processor parseFloat w name event l :
  name ≠ "CHANNEL_EXECUTE" → name ≠ "DETECTED_SPEECH" →
  name ≠ "PLAYBACK_START" → name ≠ "RECORD_STOP" →
  name ≠ "CHANNEL_HANGUP" →
  transcriptProcessor (on_event parseFloat w name event l).2
  = transcriptProcessor l.
Proof.
  intros N1 N2 N3 N4 N5.
  assert (preserves (λ x, transcriptProcessor x = transcriptProcessor l)
            (on_event parseFloat w name event)) as Hp.
  { split_dispatch; try done; unfold_handlers; hframe. }
  by apply Hp.
Qed.

(** X4: an execute event whose application is not ['speak'], or whose
    application data is missing or empty, produces no transcript: nothing is
    queued, cached or broadcast. *)
Theorem execute_without_speech_is_not_transcribed w event l :
  getHeader event "Application" ≠ Some (js "speak")
  ∨ truthy (getHeader event "Application-Data") = false →
  transcriptProcessor (handleChannelExecute w event l).2
  = transcriptProcessor l ∧
  broadcastCallback (handleChannelExecute w event l).2 = broadcastCallback l.
Proof.
  intros Hno.
  assert (preserves (λ x, transcriptProcessor x = transcriptProcessor l ∧
                          broadcastCallback x = broadcastCallback l)
            (handleChannelExecute w event)) as Hp.
  { unfold_handlers. unfold as_truthy at 2.
    destruct Hno as [Hno | ->].
    - rewrite bool_decide_eq_false_2 by done. cbn [when]. hframe.
    - cbv iota. hframe. }
  by apply Hp.
Qed.

(** X5: sessions enter the active-call table on channel-create only and
    leave it on hangup only: no other event adds a call id to the table, and
    no other event removes one. *)
Theorem active_table_changes_on_create_and_hangup_only
    parseFloat w name event l :
  (name ≠ "CHANNEL_CREATE" →
   dom (activeCalls (on_event parseFloat w name event l).2)
   ⊆ dom (activeCalls l)) ∧
  (name ≠ "CHANNEL_HANGUP" →
   dom (activeCalls l)
   ⊆ dom (activeCalls (on_event parseFloat w name event l).2)).
Proof.
  split; intros Hname.
  - assert (preserves (λ x, dom (activeCalls x) ⊆ dom (activeCalls l))
              (on_event parseFloat w name event)) as Hp.
    { split_dispatch; try done; unfold_handlers; hframe_p;
        apply preserves_modify; intros [] Hx; simpl in *.
      - by rewrite dom_alter_L.
      - by rewrite dom_alter_L.
      - rewrite dom_delete_L. intros k Hk. apply Hx.
        by apply elem_of_difference in Hk as [Hk _].
      - by rewrite dom_alter_L.
      - by rewrite dom_alter_L. }
    by apply Hp.
  - assert (preserves (λ x, dom (activeCalls l) ⊆ dom (activeCalls x))
              (on_event parseFloat w name event)) as Hp.
    { split_dispatch; try done; unfold_handlers; hframe_p;
        apply preserves_modify; intros [] Hx; simpl in *.
      - rewrite dom_insert_L. intros k Hk.
        apply elem_of_union. right. by apply Hx.
      - by rewrite dom_alter_L.
      - by rewrite dom_alter_L.
      - by rewrite dom_alter_L. }
    by apply Hp.
Qed.

(* ===================================================================== *)
(** ** What the job processors leave alone *)
(* ===================================================================== *)

(** The job processors draw identifiers and call the store's insert
    operations, nothing else: a property of the processor that neither can
    break is kept. *)
Section ProcessorFrame.

Variable w : World.
Variable I : TranscriptProcessor → Prop.
Hypothesis I_uuid : ∀ p f, I p → I (set_uuidState f p).
Hypothesis I_segment : ∀ s, preserves I (insertTranscriptSegment w s).
Hypothesis I_segments : ∀ s, preserves I (insertTranscriptSegments w s).
Hypothesis I_audio : ∀ a, preserves I (insertAudioEvent w a).
Hypothesis I_call : ∀ c, preserves I (insertCallTranscript w c).

Lemma uuidv4_frame : preserves I uuidv4.
Proof. intros p Hp. by apply I_uuid. Qed.

Lemma recording_segments_frame recordingData results segmentIndex segments :
  preserves I
    (recording_segments w recordingData results segmentIndex segments).
Proof.
  revert segmentIndex segments.
  induction results as [|result rest IH]; intros segmentIndex segments; simpl.
  - apply preserves_ret.
  - destruct (res_alternatives result) as [|alternative ?];
      [apply preserves_throw|].
    destruct (_ && _); [|apply IH].
    apply preserves_bind; [apply uuidv4_frame|intros ?]. apply IH.
Qed.

Lemma mapM_aggregated_segment_frame ctid callSid segs :
  preserves I (mapM (aggregated_segment w ctid callSid) segs).
Proof.
  induction segs as [|s segs IH]; simpl; [apply preserves_ret|].
  apply preserves_bind; [|intros row].
  - apply preserves_bind; [apply uuidv4_frame|intros ?]. apply preserves_ret.
  - apply preserves_bind; [apply IH|intros ?]. apply preserves_ret.
Qed.

Lemma run_processor_frame job : preserves I (run_processor w job).
Proof.
  unfold run_processor.
  destruct (job_data job) as [e|e|a|r|b]; apply rethrowing_preserves.
  - apply preserves_bind; [apply uuidv4_frame|intros ?].
    apply preserves_bind; [apply I_segment|intros ?].
    apply preserves_ret.
  - apply preserves_bind; [apply uuidv4_frame|intros ?].
    apply preserves_bind; [apply I_segment|intros ?].
    apply preserves_ret.
  - apply preserves_bind; [apply uuidv4_frame|intros ?].
    apply preserves_bind; [apply I_audio|intros ?].
    apply preserves_ret.
  - destruct (negb _); [apply preserves_ret|].
    destruct (negb _); [apply preserves_ret|].
    destruct (negb _); [apply preserves_throw|].
    destruct (recognize w) as [[[|result results]|]|err];
      try apply preserves_ret; try apply preserves_throw.
    apply preserves_bind; [apply recording_segments_frame|intros segments].
    apply preserves_bind; [|intros ?; apply preserves_ret].
    apply preserves_when, I_segments.
  - apply preserves_bind; [|intros ?; apply preserves_ret].
    destruct (bool_decide _); [|apply preserves_ret].
    apply rethrowing_preserves.
    apply preserves_bind; [apply uuidv4_frame|intros id].
    apply preserves_bind; [apply I_call|intros ?].
    apply preserves_when.
    apply preserves_bind; [apply mapM_aggregated_segment_frame|intros ?].
    apply I_segments.
Qed.

End ProcessorFrame.

(** The same for a property that no write to the store can break. *)
Lemma run_processor_frame_db (I : TranscriptProcessor → Prop) w job :
  (∀ p f, I p → I (set_db f p)) →
  (∀ p f, I p → I (set_uuidState f p)) →
  preserves I (run_processor w job).
Proof.
  intros I_db I_uuid. apply run_processor_frame; [done|..]; intros x.
  - unfold insertTranscriptSegment.
    destruct (storeAccepts w); [|apply preserves_throw].
    apply preserves_modify. auto.
  - unfold insertTranscriptSegments. destruct x; [apply preserves_ret|].
    destruct (storeAccepts w); [|apply preserves_throw].
    apply preserves_modify. auto.
  - unfold insertAudioEvent.
    destruct (storeAccepts w); [|apply preserves_throw].
    apply preserves_modify. auto.
  - unfold insertCallTranscript.
    destruct (storeAccepts w); [|apply preserves_throw].
    apply preserves_modify. auto.
Qed.

Lemma work_cache w lane i p :
  activeCallTranscripts (work w lane i p).2 = activeCallTranscripts p.
Proof.
  unfold work.
  destruct (queues p !! lane) as [q|]; [|done].
  destruct (waiting q !! i) as [job|]; [|done].
  pose proof (run_processor_frame_db
                (λ x, activeCallTranscripts x = activeCallTranscripts p)
                w job ltac:(by intros []) ltac:(by intros []) p eq_refl) as H.
  by destruct (run_processor w job p) as [r p'].
Qed.

(* ===================================================================== *)
(** ** Sessions and caches are filed under their own call id *)
(* ===================================================================== *)

Lemma addToCallCache_keyed w eventData m :
  cache_keyed m → cache_keyed (addToCallCache w (ev_callSid eventData) eventData m).
Proof.
  intros Hm k cache.
  destruct (decide (ev_callSid eventData = k)) as [<-|Hne].
  - rewrite addToCallCache_lookup. intros [= <-].
    assert (Forall (λ e, ev_callSid (cached_data e) = ev_callSid eventData)
              (default [] (m !! ev_callSid eventData)
               ++ [mkCachedEvent eventData (now w)])) as Hall.
    { apply Forall_app. split; [|by constructor].
      destruct (m !! ev_callSid eventData) eqn:Hk; [by eapply Hm|constructor]. }
    destruct (_ <? _)%nat; [|done]. by apply Forall_drop.
  - rewrite addToCallCache_lookup_ne by done. apply Hm.
Qed.

Lemma trackProcessedEvent_keyed w n :
  preserves (λ p, cache_keyed (activeCallTranscripts p))
    (trackProcessedEvent w n).
Proof. unfold trackProcessedEvent, reportPerformance. frame. Qed.

Lemma queue_add_cache w lane name data opts p :
  activeCallTranscripts (queue_add w lane name data opts p).2
  = activeCallTranscripts p.
Proof.
  unfold queue_add. destruct (queues p !! lane); [|done].
  by destruct (brokerAccepts w).
Qed.

Lemma queue_add_keyed w lane name data opts :
  preserves (λ p, cache_keyed (activeCallTranscripts p))
    (queue_add w lane name data opts).
Proof. intros p Hp. by rewrite queue_add_cache. Qed.

Lemma cache_add_keyed w e :
  preserves (λ p, cache_keyed (activeCallTranscripts p))
    (modify (set_activeCallTranscripts (addToCallCache w (ev_callSid e) e))).
Proof. apply preserves_modify. intros p Hp. by apply addToCallCache_keyed. Qed.

Lemma processTTSEvent_keyed w e :
  preserves (λ p, cache_keyed (activeCallTranscripts p)) (processTTSEvent w e).
Proof.
  apply preserves_try_catch; [|intros ?; apply preserves_ret].
  apply preserves_bind; [apply queue_add_keyed|intros ?].
  apply preserves_bind; [apply cache_add_keyed|intros ?].
  apply trackProcessedEvent_keyed.
Qed.

Lemma processSTTEvent_keyed w e :
  preserves (λ p, cache_keyed (activeCallTranscripts p)) (processSTTEvent w e).
Proof.
  apply preserves_try_catch; [|intros ?; apply preserves_ret].
  apply preserves_bind; [apply queue_add_keyed|intros ?].
  apply preserves_bind; [apply cache_add_keyed|intros ?].
  apply trackProcessedEvent_keyed.
Qed.

Lemma processAudioEvent_keyed w e :
  preserves (λ p, cache_keyed (activeCallTranscripts p)) (processAudioEvent w e).
Proof.
  apply preserves_try_catch; [|intros ?; apply preserves_ret].
  apply preserves_bind; [apply queue_add_keyed|intros ?].
  apply trackProcessedEvent_keyed.
Qed.

Lemma processRecordingComplete_keyed w r :
  preserves (λ p, cache_keyed (activeCallTranscripts p))
    (processRecordingComplete w r).
Proof.
  apply preserves_try_catch; [|intros ?; apply preserves_ret].
  apply preserves_bind; [apply queue_add_keyed|intros ?].
  apply trackProcessedEvent_keyed.
Qed.

Lemma processCallComplete_keyed w c :
  preserves (λ p, cache_keyed (activeCallTranscripts p))
    (processCallComplete w c).
Proof.
  apply preserves_try_catch; [|intros ?; apply preserves_ret].
  apply preserves_bind; [apply preserves_gets|intros cached].
  apply preserves_bind; [|intros ?; apply preserves_bind; [|intros ?]].
  - destruct cached as [[|]|]; try apply preserves_ret. apply queue_add_keyed.
  - apply preserves_modify. intros p Hp k cache Hk. proj_p.
    apply lookup_delete_Some in Hk as [_ Hk]. by eapply Hp.
  - apply trackProcessedEvent_keyed.
Qed.

Lemma sessions_keyed_insert k call m :
  callSid call = k → sessions_keyed m → sessions_keyed (<[k := call]> m).
Proof.
  intros Hk Hm k' call'. rewrite lookup_insert.
  case_decide; [intros [= <-]; by subst | apply Hm].
Qed.

Lemma sessions_keyed_alter f k m :
  (∀ call, callSid (f call) = callSid call) →
  sessions_keyed m → sessions_keyed (alter f k m).
Proof.
  intros Hf Hm k' call'. rewrite lookup_alter.
  case_decide; [|apply Hm]. subst k'.
  destruct (m !! k) as [call|] eqn:Hk; [|done].
  intros [= <-]. rewrite Hf. by eapply Hm.
Qed.

Lemma sessions_keyed_delete k m :
  sessions_keyed m → sessions_keyed (delete k m).
Proof.
  intros Hm k' call' Hk'. apply lookup_delete_Some in Hk' as [_ Hk'].
  by eapply Hm.
Qed.

Lemma on_processor_keyed {A} (m : M TranscriptProcessor A) :
  preserves (λ p, cache_keyed (activeCallTranscripts p)) m →
  preserves keyed (on_processor m).
Proof.
  intros Hm l [Hs Hc]. unfold on_processor, zoom.
  specialize (Hm (transcriptProcessor l) Hc).
  by destruct (m (transcriptProcessor l)).
Qed.

Lemma on_event_keyed parseFloat w name event :
  preserves keyed (on_event parseFloat w name event).
Proof.
  split_dispatch; unfold_handlers; hframe;
    try (apply on_processor_keyed;
         first [ apply processTTSEvent_keyed | apply processSTTEvent_keyed
               | apply processAudioEvent_keyed
               | apply processRecordingComplete_keyed
               | apply processCallComplete_keyed ]);
    apply preserves_modify; intros [] [Hs Hc]; (split; [|done]); simpl in *.
  - apply sessions_keyed_insert; [|done].
    unfold as_truthy in *. by destruct (truthy _).
  - by apply sessions_keyed_alter.
  - by apply sessions_keyed_alter.
  - by apply sessions_keyed_delete.
  - by apply sessions_keyed_alter.
  - by apply sessions_keyed_alter.
Qed.

Lemma on_connection_activeCalls c l :
  activeCalls (on_connection c l).2 = activeCalls l.
Proof.
  assert (preserves (λ x, activeCalls x = activeCalls l)
            (on_connection c)) as Hp.
  { unfold on_connection, reconnect_timer, connect, handleDisconnection.
    destruct c as [| |i outcome]; frame. }
  by apply Hp.
Qed.

Lemma step_keyed parseFloat w input : preserves keyed (step parseFloat w input).
Proof.
  destruct input as [name event|c|lane i]; simpl.
  - apply on_event_keyed.
  - intros l [Hs Hc]. split.
    + by rewrite on_connection_activeCalls.
    + by rewrite on_connection_processor.
  - apply preserves_bind; [|intros ?; apply preserves_ret].
    apply on_processor_keyed. intros p Hp. by rewrite work_cache.
Qed.

Lemma run_keyed parseFloat trace : preserves keyed (run parseFloat trace).
Proof.
  induction trace as [|[w input] rest IH]; simpl.
  - apply preserves_ret.
  - apply preserves_bind; [apply step_keyed|by intros ?].
Qed.

(** X6: in every state the service reaches from its start, each session of
    the active-call table carries the call id it is stored under, and each
    event of a per-call cache carries the call id of its cache. *)
Theorem sessions_and_caches_filed_under_own_id
    parseFloat trace (initialized : bool) t0 monitor withBroadcast
    maxAttempts delay t1 :
  let p0 := if initialized then initialize (new_TranscriptProcessor t0)
            else new_TranscriptProcessor t0 in
  let l := (run parseFloat trace
              (new_FreeSWITCHListener p0 monitor withBroadcast maxAttempts
                 delay t1)).2 in
  (∀ k call, activeCalls l !! k = Some call → callSid call = k) ∧
  (∀ k cache e,
     activeCallTranscripts (transcriptProcessor l) !! k = Some cache →
     e ∈ cache → ev_callSid (cached_data e) = k).
Proof.
  intros p0 l.
  assert (keyed l) as [Hs Hc].
  { apply run_keyed. split.
    - intros k call. cbn [new_FreeSWITCHListener activeCalls].
      by rewrite lookup_empty.
    - intros k cache. subst p0.
      destruct initialized;
        cbn [new_FreeSWITCHListener transcriptProcessor initialize
             new_TranscriptProcessor activeCallTranscripts];
        by rewrite lookup_empty. }
  split; [exact Hs|].
  intros k cache e Hk He. specialize (Hc k cache Hk).
  by eapply Forall_forall in Hc.
Qed.

(* ===================================================================== *)
(** ** Ingestion and the queues *)
(* ===================================================================== *)

(** A property [J] of the processor that adding a job, caching an event,
    dropping a cache and counting an event cannot break holds along every
    run without queue work. *)
Section IngestInvariant.

Variable parseFloat : option jsstring → jsnum.
Variable J : TranscriptProcessor → Prop.

Hypothesis J_add :
  ∀ w lane name data opts, preserves J (queue_add w lane name data opts).
Hypothesis J_cache :
  ∀ p f, J p → J (set_activeCallTranscripts f p).
Hypothesis J_processedEvents : ∀ p f, J p → J (set_processedEvents f p).
Hypothesis J_lastReport : ∀ p f, J p → J (set_lastPerformanceReport f p).

Lemma trackProcessedEvent_ingest w n : preserves J (trackProcessedEvent w n).
Proof.
  unfold trackProcessedEvent, reportPerformance.
  apply preserves_bind; [apply preserves_modify; auto|intros ?].
  apply preserves_bind; [apply preserves_gets|intros ?].
  apply preserves_when.
  apply preserves_bind; [apply preserves_modify; auto|intros ?].
  apply preserves_modify; auto.
Qed.

Lemma processor_methods_ingest :
  (∀ w e, preserves J (processTTSEvent w e)) ∧
  (∀ w e, preserves J (processSTTEvent w e)) ∧
  (∀ w e, preserves J (processAudioEvent w e)) ∧
  (∀ w r, preserves J (processRecordingComplete w r)) ∧
  (∀ w c, preserves J (processCallComplete w c)).
Proof.
  pose proof trackProcessedEvent_ingest as Htrack.
  assert (∀ f, preserves J (modify (set_activeCallTranscripts f))) as Hc
    by (intros f; apply preserves_modify; auto).
  split; [|split; [|split; [|split]]]; intros w x;
    (apply preserves_try_catch; [|intros ?; apply preserves_ret]).
  - apply preserves_bind; [apply J_add|intros ?]. by apply preserves_bind.
  - apply preserves_bind; [apply J_add|intros ?]. by apply preserves_bind.
  - by apply preserves_bind.
  - by apply preserves_bind.
  - apply preserves_bind; [apply preserves_gets|intros cached].
    apply preserves_bind; [|intros ?; by apply preserves_bind].
    destruct cached as [[|]|]; try apply preserves_ret. apply J_add.
Qed.

Lemma on_processor_lift {A} (m : M TranscriptProcessor A) :
  preserves J m → preserves (λ l, J (transcriptProcessor l)) (on_processor m).
Proof.
  intros Hm l Hl. unfold on_processor, zoom.
  specialize (Hm (transcriptProcessor l) Hl).
  by destruct (m (transcriptProcessor l)).
Qed.

Lemma on_event_ingest w name event :
  preserves (λ l, J (transcriptProcessor l)) (on_event parseFloat w name event).
Proof.
  destruct processor_methods_ingest as (H1 & H2 & H3 & H4 & H5).
  split_dispatch; unfold_handlers; hframe; by apply on_processor_lift.
Qed.

Lemma run_ingest trace :
  Forall (λ wi, is_ingest wi.2) trace →
  preserves (λ l, J (transcriptProcessor l)) (run parseFloat trace).
Proof.
  induction 1 as [|[w input] rest Hin Hrest IH]; simpl.
  - apply preserves_ret.
  - apply preserves_bind; [|by intros ?].
    destruct input as [name event|c|lane i]; simpl in *.
    + apply on_event_ingest.
    + intros l Hl. by rewrite on_connection_processor.
    + done.
Qed.

End IngestInvariant.

Lemma lanes_extend_refl qs : lanes_extend qs qs.
Proof.
  intros lane. destruct (qs !! lane); constructor. by split.
Qed.

Lemma queue_add_extends qs0 w lane name data opts :
  preserves (λ p, lanes_extend qs0 (queues p))
    (queue_add w lane name data opts).
Proof.
  intros p Hp. unfold queue_add.
  destruct (queues p !! lane) as [q|] eqn:Hq; [|done].
  destruct (brokerAccepts w); [|done].
  proj_p. intros lane'. destruct (decide (lane = lane')) as [<-|Hne].
  - rewrite lookup_insert_eq. specialize (Hp lane). rewrite Hq in Hp.
    inversion Hp as [q0 ? (Hpre & Hc & Hf)|]; subst. constructor.
    split; [|done]. cbn [waiting]. by apply prefix_app_r.
  - rewrite lookup_insert_ne by done. apply Hp.
Qed.

(** X7: handling switch events and connection events never removes,
    reorders or rewrites a job that waits on a lane and never touches a
    lane's counters: along every run without queue work each lane keeps its
    waiting jobs as a prefix of what it holds afterwards, lanes are neither
    created nor removed, and nothing is written to the store. *)
Theorem ingestion_only_appends_jobs parseFloat trace l :
  Forall (λ wi, is_ingest wi.2) trace →
  let p := transcriptProcessor l in
  let p' := transcriptProcessor (run parseFloat trace l).2 in
  (∀ lane, queues p' !! lane = None ↔ queues p !! lane = None) ∧
  (∀ lane q q',
     queues p !! lane = Some q → queues p' !! lane = Some q' →
     waiting q `prefix_of` waiting q' ∧
     completed q' = completed q ∧ failed q' = failed q) ∧
  db p' = db p.
Proof.
  intros Htrace p p'.
  assert (lanes_extend (queues p) (queues p')) as Hext.
  { apply (run_ingest parseFloat (λ x, lanes_extend (queues p) (queues x)));
      try done; try (by intros []).
    - intros. apply queue_add_extends.
    - apply lanes_extend_refl. }
  assert (db p' = db p) as Hdb.
  { apply (run_ingest parseFloat (λ x, db x = db p));
      try done; try (by intros []).
    intros w lane name data opts x Hx. unfold queue_add.
    destruct (queues x !! lane); [|done]. by destruct (brokerAccepts w). }
  split; [|split; [|done]].
  - intros lane. specialize (Hext lane).
    inversion Hext; split; congruence.
  - intros lane q q' Hq Hq'. specialize (Hext lane).
    rewrite Hq, Hq' in Hext. by inversion Hext.
Qed.

(* ===================================================================== *)
(** ** A broker that refuses a job *)
(* ===================================================================== *)

Lemma queue_add_refused w lane name data opts p :
  brokerAccepts w = false ∨ queues p !! lane = None →
  ∃ e, queue_add w lane name data opts p = (Throw e, p).
Proof.
  intros Hno. unfold queue_add.
  destruct (queues p !! lane) as [q|] eqn:Hq; [|by eexists].
  destruct Hno as [-> | ?]; [by eexists | done].
Qed.

Lemma processCallComplete_refused w p c e es :
  brokerAccepts w = false ∨ queues p !! "batch" = None →
  activeCallTranscripts p !! callSid c = Some (e :: es) →
  processCallComplete w c p = (Normal tt, p).
Proof.
  intros Hno Hcache. unfold processCallComplete, try_catch.
  erewrite bind_normal by reflexivity. cbn beta. rewrite Hcache.
  destruct (queue_add_refused w "batch" (js "batch-insert")
              (BatchJob (mkBatchData (js "call_complete") (callSid c) c
                           (e :: es)))
              (mkJobOpts 8 3 None None) p Hno) as [err Herr].
  by erewrite bind_throw by exact Herr.
Qed.

(** X8: when the broker refuses a job, or the lanes were never created, the
    event is lost without a trace: the public methods of the processor
    swallow the failure and leave the processor exactly as it was, so the
    event is neither cached nor counted; at call completion with a non-empty
    cache, the cache entry is then not cleared either. *)
Theorem refused_job_is_swallowed w p :
  brokerAccepts w = false ∨ queues p = ∅ →
  (∀ e, processTTSEvent w e p = (Normal tt, p)) ∧
  (∀ e, processSTTEvent w e p = (Normal tt, p)) ∧
  (∀ a, processAudioEvent w a p = (Normal tt, p)) ∧
  (∀ r, processRecordingComplete w r p = (Normal tt, p)) ∧
  (∀ c e es,
     activeCallTranscripts p !! callSid c = Some (e :: es) →
     processCallComplete w c p = (Normal tt, p)).
Proof.
  intros Hno.
  assert (∀ lane name data opts,
            ∃ e, queue_add w lane name data opts p = (Throw e, p)) as Hadd.
  { intros. apply queue_add_refused.
    destruct Hno as [?| ->]; [by left|right; apply lookup_empty]. }
  split; [|split; [|split; [|split]]].
  - intros e. unfold processTTSEvent, try_catch.
    destruct (Hadd "tts" (js "tts-event") (TtsJob e)
                (mkJobOpts 10 3 None (exponential 1000))) as [err Herr].
    by erewrite bind_throw by exact Herr.
  - intros e. unfold processSTTEvent, try_catch.
    destruct (Hadd "stt" (js "stt-event") (SttJob e)
                (mkJobOpts 10 3 None (exponential 1000))) as [err Herr].
    by erewrite bind_throw by exact Herr.
  - intros a. unfold processAudioEvent, try_catch.
    destruct (Hadd "audio" (js "audio-event") (AudioJob a)
                (mkJobOpts 5 2 None (exponential 2000))) as [err Herr].
    by erewrite bind_throw by exact Herr.
  - intros r. unfold processRecordingComplete, try_catch.
    destruct (Hadd "recording" (js "recording-batch") (RecordingJob r)
                (mkJobOpts 3 2 (Some 5000) (exponential 10000))) as [err Herr].
    by erewrite bind_throw by exact Herr.
  - intros c e es Hcache. apply processCallComplete_refused with e es; [|done].
    destruct Hno as [?| ->]; [by left|right; apply lookup_empty].
Qed.

(* ===================================================================== *)
(** ** Hangup of a call with cached events *)
(* ===================================================================== *)

(** What a hangup of an active call does to the processor and to the
    active-call table. *)
Lemma handleChannelHangup_active w event l sid call :
  as_truthy (extractCallSid event) = Some sid →
  activeCalls l !! sid = Some call →
  let ended := mark_ended (now w) (getHeader event "Hangup-Cause") call in
  transcriptProcessor (handleChannelHangup w event l).2
  = (processCallComplete w ended (transcriptProcessor l)).2 ∧
  activeCalls (handleChannelHangup w event l).2
  = delete sid (activeCalls l).
Proof.
  intros Hsid Hcall ended. unfold handleChannelHangup. rewrite Hsid.
  erewrite bind_normal by reflexivity. cbn beta. rewrite Hcall.
  erewrite bind_normal by reflexivity. fold ended.
  set (l1 := set_activeCalls _ l).
  pose proof (returns_unit _ (transcriptProcessor l)
                (processCallComplete_returns w ended)) as Hret.
  destruct (processCallComplete w ended (transcriptProcessor l))
    as [r p'] eqn:Hrun. simpl in Hret. subst r.
  erewrite bind_normal
    by (unfold listener_processCallComplete, on_processor, zoom;
        change (transcriptProcessor l1) with (transcriptProcessor l);
        rewrite Hrun; reflexivity).
  erewrite bind_normal by reflexivity.
  match goal with |- context [trackEvent w ?n ?s] =>
    assert (preserves (λ x, transcriptProcessor x = p' ∧
                            activeCalls x = delete sid (activeCalls l))
              (trackEvent w n)) as Hp
      by (apply trackEvent_preserves; by intros []);
    destruct (Hp s) as [H1 H2]
  end.
  - split; [done|]. subst l1. cbn [activeCalls set_activeCalls
      set_transcriptProcessor]. rewrite delete_alter. by case_decide.
  - by rewrite H1, H2.
Qed.

(** X9: the hangup of an active call that has cached events, with the
    aggregation lane present and the broker accepting, removes the session,
    appends one aggregation job that carries the ended session (end time
    now, hangup cause from the event) and all cached events in their order,
    and removes the cache entry. *)
Theorem hangup_queues_the_whole_cache w event l sid call e es q :
  as_truthy (extractCallSid event) = Some sid →
  activeCalls l !! sid = Some call →
  callSid call = sid →
  activeCallTranscripts (transcriptProcessor l) !! sid = Some (e :: es) →
  queues (transcriptProcessor l) !! "batch" = Some q →
  brokerAccepts w = true →
  let l' := (handleChannelHangup w event l).2 in
  let ended := mark_ended (now w) (getHeader event "Hangup-Cause") call in
  activeCalls l' !! sid = None ∧
  activeCallTranscripts (transcriptProcessor l') !! sid = None ∧
  queues (transcriptProcessor l') !! "batch"
  = Some (mkBullQueue
            (waiting q
             ++ [mkJob (js "batch-insert")
                   (BatchJob (mkBatchData (js "call_complete") sid ended
                                (e :: es)))
                   (mkJobOpts 8 3 None None) 0])
            (completed q) (failed q)) ∧
  endTime ended = Some (now w) ∧
  hangupCause ended = getHeader event "Hangup-Cause".
Proof.
  intros Hsid Hcall Hkey Hcache Hq Hb l' ended.
  destruct (handleChannelHangup_active w event l sid call Hsid Hcall)
    as [Hp Ha].
  fold ended in Hp. subst l'. rewrite Hp, Ha.
  split; [apply lookup_delete_eq|].
  assert (callSid ended = sid) as Hended by done.
  unfold processCallComplete, try_catch.
  erewrite bind_normal by reflexivity. cbn beta. rewrite Hended, Hcache.
  erewrite bind_normal by (by apply queue_add_ok).
  erewrite bind_normal by reflexivity.
  match goal with |- context [trackProcessedEvent w ?n ?s] =>
    pose proof (trackProcessedEvent_frame w n s) as (H1 & H2 & H3);
    pose proof (returns_unit _ s (trackProcessedEvent_returns w n)) as Hret;
    destruct (trackProcessedEvent w n s) as [c p']
  end.
  simpl in Hret. subst c. cbn [fst snd] in *. rewrite H1, H3. proj_p.
  split; [apply lookup_delete_eq|]. split; [apply lookup_insert_eq|done].
Qed.

(** X10: when the broker refuses the aggregation job, the hangup of an
    active call with cached events still removes the session, but its cache
    entry stays behind and no job is queued. *)
Theorem hangup_with_refused_job_keeps_cache w event l sid call e es :
  as_truthy (extractCallSid event) = Some sid →
  activeCalls l !! sid = Some call →
  callSid call = sid →
  activeCallTranscripts (transcriptProcessor l) !! sid = Some (e :: es) →
  brokerAccepts w = false →
  let l' := (handleChannelHangup w event l).2 in
  activeCalls l' !! sid = None ∧
  transcriptProcessor l' = transcriptProcessor l ∧
  activeCallTranscripts (transcriptProcessor l') !! sid = Some (e :: es).
Proof.
  intros Hsid Hcall Hkey Hcache Hb l'.
  destruct (handleChannelHangup_active w event l sid call Hsid Hcall)
    as [Hp Ha].
  subst l'. rewrite Ha, Hp.
  rewrite (processCallComplete_refused w _ _ e es)
    by (by left || by rewrite <- Hkey in Hcache).
  split; [apply lookup_delete_eq|]. by split.
Qed.

(* ===================================================================== *)
(** ** Utility methods *)
(* ===================================================================== *)

Lemma last_component_no_slash acc name :
  47%N ∉ name → last_component acc name = acc ++ name.
Proof.
  revert acc. induction name as [|c name IH]; intros acc Hno; simpl.
  - by rewrite app_nil_r.
  - apply not_elem_of_cons in Hno as [Hc Hno].
    destruct (N.eqb_spec c 47); [congruence|].
    rewrite IH by done. by rewrite <- app_assoc.
Qed.

Lemma last_component_after_slash acc dir name :
  47%N ∉ name → last_component acc (dir ++ 47%N :: name) = name.
Proof.
  intros Hno. revert acc. induction dir as [|c dir IH]; intros acc; simpl.
  - by apply last_component_no_slash.
  - destruct (c =? 47)%N; apply IH.
Qed.

(** X11: [getFileName] answers the part of a path after its last ['/'];
    for a path without ['/'] and for a path that ends in ['/'] it answers the
    whole path, and for a missing or empty path the empty string. *)
Theorem getFileName_last_component dir name :
  47%N ∉ name →
  getFileName (Some (dir ++ 47%N :: name))
  = (if bool_decide (name = []) then dir ++ [47%N] else name) ∧
  getFileName (Some name) = name ∧
  getFileName None = [] ∧
  getFileName (Some []) = [].
Proof.
  intros Hno. split; [|split; [|done]].
  - unfold getFileName.
    replace (truthy (Some (dir ++ 47%N :: name))) with true
      by (by destruct dir).
    rewrite last_component_after_slash by done.
    destruct name; [done|]. by rewrite bool_decide_eq_false_2.
  - unfold getFileName. destruct name as [|c name]; [done|].
    cbn [truthy]. rewrite last_component_no_slash by done. done.
Qed.

(** X12: [truncateText] never answers more than [maxLength + 3] code
    units; a text of at most [maxLength] code units is answered unchanged,
    a longer one is cut to its first [maxLength] code units followed by
    ['...']. *)
Theorem truncateText_bounds text maxLength :
  (length (truncateText (Some text) maxLength) ≤ maxLength + 3)%nat ∧
  ((length text ≤ maxLength)%nat →
   truncateText (Some text) maxLength = text) ∧
  ((maxLength < length text)%nat →
   truncateText (Some text) maxLength = take maxLength text ++ js "...").
Proof.
  unfold truncateText. destruct text as [|c text].
  - split; [simpl; lia|]. split; [done|]. simpl. lia.
  - cbn [truthy]. destruct (Nat.ltb_spec maxLength (length (c :: text))).
    + split; [|split; [lia|done]].
      rewrite length_app, length_take. simpl. lia.
    + split; [lia|]. split; [done|lia].
Qed.

(** X13: [trackEvent] counts within a window of one minute. While at most
    60000 ms have passed since the last report, the counter of the event
    type grows by one and the other counters stay; once more has passed, the
    report empties every counter, the one just counted included, and the
    window restarts at the current time. *)
Theorem trackEvent_window w eventType l :
  let l' := (trackEvent w eventType l).2 in
  (now w - lastStatsReport l ≤ 60000 →
   eventCounts l'
   = <[eventType := S (default 0%nat (eventCounts l !! eventType))]>
       (eventCounts l) ∧
   lastStatsReport l' = lastStatsReport l) ∧
  (60000 < now w - lastStatsReport l →
   eventCounts l' = ∅ ∧ lastStatsReport l' = now w).
Proof.
  unfold trackEvent. unfold_m. cbn.
  destruct (Z.ltb_spec 60000 (now w - lastStatsReport l)); cbn;
    split; intros; try lia; done.
Qed.

(* ===================================================================== *)
(** ** Job processors and a store that refuses *)
(* ===================================================================== *)

Lemma run_processor_store_refuses w job p :
  storeAccepts w = false → db (run_processor w job p).2 = db p.
Proof.
  intros Hstore.
  apply (run_processor_frame w (λ x, db x = db p)); [| | | | |done].
  - by intros [].
  - intros s. unfold insertTranscriptSegment. rewrite Hstore.
    apply preserves_throw.
  - intros s. unfold insertTranscriptSegments. rewrite Hstore.
    destruct s; [apply preserves_ret|apply preserves_throw].
  - intros a. unfold insertAudioEvent. rewrite Hstore. apply preserves_throw.
  - intros c. unfold insertCallTranscript. rewrite Hstore.
    apply preserves_throw.
Qed.

(** X14: when the store refuses writes, no job processor hands it anything,
    and the processors of synthesis, recognition, audio and call-completion
    jobs end in the store's error, so that the broker sees the job fail. *)
Theorem refusing_store_fails_the_job w p :
  storeAccepts w = false →
  (∀ job, db (run_processor w job p).2 = db p) ∧
  (∀ e, (processTTSJob w e p).1 = Throw StoreError) ∧
  (∀ e, (processSTTJob w e p).1 = Throw StoreError) ∧
  (∀ a, (processAudioJob w a p).1 = Throw StoreError) ∧
  (∀ b, (processBatchCallComplete w b p).1 = Throw StoreError) ∧
  (∀ b, batch_type b = js "call_complete" →
        (processBatchInsert w b p).1 = Throw StoreError).
Proof.
  intros Hstore.
  split; [intros job; by apply run_processor_store_refuses|].
  assert (∀ b, (processBatchCallComplete w b p).1 = Throw StoreError) as Hb.
  { intros b. unfold processBatchCallComplete, rethrowing, try_catch.
    erewrite bind_normal by reflexivity.
    erewrite bind_throw
      by (unfold insertCallTranscript; rewrite Hstore; reflexivity).
    done. }
  split; [|split; [|split; [|split; [done|]]]].
  - intros e. unfold processTTSJob, rethrowing, try_catch.
    erewrite bind_normal by reflexivity.
    erewrite bind_throw
      by (unfold insertTranscriptSegment; rewrite Hstore; reflexivity).
    done.
  - intros e. unfold processSTTJob, rethrowing, try_catch.
    erewrite bind_normal by reflexivity.
    erewrite bind_throw
      by (unfold insertTranscriptSegment; rewrite Hstore; reflexivity).
    done.
  - intros a. unfold processAudioJob, rethrowing, try_catch.
    erewrite bind_normal by reflexivity.
    erewrite bind_throw
      by (unfold insertAudioEvent; rewrite Hstore; reflexivity).
    done.
  - intros b Htype. specialize (Hb b).
    unfold processBatchInsert, rethrowing, try_catch.
    rewrite bool_decide_eq_true_2 by done.
    destruct (processBatchCallComplete w b p) as [r p'] eqn:Hrun.
    simpl in Hb. subst r.
    by erewrite bind_throw by exact Hrun.
Qed.

(** X15: an aggregation job whose type is not ['call_complete'] is
    reported as processed although nothing was done: the processor stays as
    it was and the job does not fail. *)
Theorem unknown_batch_type_is_a_silent_success w b p :
  batch_type b ≠ js "call_complete" →
  processBatchInsert w b p = (Normal (BatchProcessed 0), p).
Proof.
  intros Htype. unfold processBatchInsert, rethrowing, try_catch.
  by rewrite bool_decide_eq_false_2.
Qed.

(* ===================================================================== *)
(** ** Recording batch transcription with a provider answer *)
(* ===================================================================== *)

Lemma recording_segments_rows w recordingData results segmentIndex segments p :
  Forall (λ r, res_alternatives r ≠ []) results →
  ∃ rows p',
    recording_segments w recordingData results segmentIndex segments p
    = (Normal (segments ++ rows), p') ∧
    db p' = db p ∧ queues p' = queues p ∧
    activeCallTranscripts p' = activeCallTranscripts p ∧
    seg_text <$> rows
    = first_transcript <$> filter (λ r, has_speech r) results ∧
    seg_speaker <$> rows
    = imap (λ j r, batch_speaker (segmentIndex + j) r)
        (filter (λ r, has_speech r) results) ∧
    Forall (λ row, seg_call_sid row = rec_callSid recordingData ∧
                   seg_segment_type row = js "stt_batch" ∧
                   seg_language row = Some (js "bn-BD") ∧
                   is_Some (seg_end_time row)) rows.
Proof.
  intros Halts. revert segmentIndex segments p.
  induction Halts as [|result rest Halt Hrest IH]; intros idx acc p.
  - exists [], p. simpl. rewrite app_nil_r. repeat split; constructor.
  - simpl. destruct (res_alternatives result) as [|alternative alts] eqn:Hres;
      [done|].
    destruct (truthy (alt_transcript alternative)
              && truthy (js_trim <$> alt_transcript alternative)) eqn:Hkeep.
    + erewrite bind_normal by reflexivity. cbn beta zeta.
      match goal with |- context [recording_segments _ _ _ _ (acc ++ [?s]) ?q] =>
        destruct (IH (S idx) (acc ++ [s]) q)
          as (rows & p' & Hrun & Hdb & Hq & Hc & Htext & Hspk & Hall);
        exists (s :: rows), p'
      end.
      rewrite Hrun, <- app_assoc. cbn [app].
      rewrite filter_cons_True
        by (unfold has_speech; rewrite Hres, Hkeep; done).
      split; [done|]. split; [done|]. split; [done|]. split; [done|].
      split; [|split].
      * rewrite !fmap_cons, Htext. cbn [seg_text]. f_equal.
        unfold first_transcript. by rewrite Hres.
      * rewrite fmap_cons, Hspk, imap_cons. cbn [seg_speaker]. f_equal.
        -- unfold batch_speaker. by rewrite Nat.add_0_r.
        -- apply imap_ext. intros j r _. simpl. f_equal. lia.
      * constructor; [|done]. simpl. repeat split; eauto.
    + destruct (IH idx acc p)
        as (rows & p' & Hrun & Hdb & Hq & Hc & Htext & Hspk & Hall).
      exists rows, p'.
      rewrite filter_cons_False
        by (unfold has_speech; rewrite Hres, Hkeep; intros []).
      done.
Qed.

(** X16: with credentials, a readable recording, a provider answer whose
    results all carry an alternative, and an accepting store, the recording
    processor hands the store one segment for every result whose first
    alternative has a transcript that is not blank, in the order of the
    results and with that transcript as text, skips the other results, and
    reports the number of segments. *)
Theorem processRecordingJob_one_segment_per_transcript
    w recordingData results p :
  truthy (GOOGLE_APPLICATION_CREDENTIALS w) = true →
  fileAccessible w = true → fileReadable w = true →
  recognize w = Normal (Some results) → results ≠ [] →
  Forall (λ r, res_alternatives r ≠ []) results →
  storeAccepts w = true →
  ∃ rows p',
    processRecordingJob w recordingData p
    = (Normal (RecordingProcessed (length rows) 0 (rec_duration recordingData)),
       p') ∧
    transcript_segments (db p') = transcript_segments (db p) ++ rows ∧
    call_transcripts (db p') = call_transcripts (db p) ∧
    seg_text <$> rows
    = first_transcript <$> filter (λ r, has_speech r) results ∧
    Forall (λ row, seg_call_sid row = rec_callSid recordingData ∧
                   seg_segment_type row = js "stt_batch" ∧
                   seg_language row = Some (js "bn-BD") ∧
                   is_Some (seg_end_time row)) rows.
Proof.
  intros Hcred Hacc Hread Hrec Hne Halts Hstore.
  destruct (recording_segments_rows w recordingData results 0 [] p Halts)
    as (rows & p1 & Hrun & Hdb & Hq & Hc & Htext & Hspk & Hall).
  unfold processRecordingJob, rethrowing, try_catch.
  rewrite Hcred, Hacc, Hread, Hrec. cbn [negb].
  destruct results as [|r0 results']; [done|].
  erewrite bind_normal by exact Hrun. cbn [app].
  destruct rows as [|row rows'].
  - exists [], p1. simpl. rewrite app_nil_r, Hdb. done.
  - eexists (row :: rows'), _.
    unfold when. change (0 <? length (row :: rows'))%nat with true. cbv iota.
    unfold insertTranscriptSegments. rewrite Hstore.
    split; [reflexivity|]. simpl. by rewrite Hdb.
Qed.

(** X17: when no result of the provider answer carries a speaker tag, the
    segments of a recording are attributed in turn: the first to the caller,
    the second to the agent, and so on, counting only the results that became
    segments. *)
Theorem processRecordingJob_speakers_alternate w recordingData results p :
  truthy (GOOGLE_APPLICATION_CREDENTIALS w) = true →
  fileAccessible w = true → fileReadable w = true →
  recognize w = Normal (Some results) →
  Forall (λ r, res_alternatives r ≠ []) results →
  Forall (λ r, res_speakerTag r = None) results →
  storeAccepts w = true →
  ∃ rows,
    transcript_segments (db (processRecordingJob w recordingData p).2)
    = transcript_segments (db p) ++ rows ∧
    ∀ j row, rows !! j = Some row →
      seg_speaker row
      = if (j mod 2 =? 0)%nat then js "caller" else js "agent".
Proof.
  intros Hcred Hacc Hread Hrec Halts Htags Hstore.
  destruct (recording_segments_rows w recordingData results 0 [] p Halts)
    as (rows & p1 & Hrun & Hdb & Hq & Hc & Htext & Hspk & Hall).
  exists rows. split.
  - unfold processRecordingJob, rethrowing, try_catch.
    rewrite Hcred, Hacc, Hread, Hrec. cbn [negb].
    destruct results as [|r0 results'].
    + simpl in Hrun. injection Hrun as <- <-. simpl. by rewrite app_nil_r.
    + erewrite bind_normal by exact Hrun. cbn [app].
      destruct rows as [|row rows'].
      * simpl. by rewrite app_nil_r, Hdb.
      * unfold when. change (0 <? length (row :: rows'))%nat with true.
        cbv iota. unfold insertTranscriptSegments. rewrite Hstore.
        simpl. by rewrite Hdb.
  - intros j row Hj.
    assert ((seg_speaker <$> rows) !! j = Some (seg_speaker row)) as Hlook
      by (by rewrite list_lookup_fmap, Hj).
    rewrite Hspk in Hlook. apply list_lookup_imap_Some in Hlook
      as (r & Hr & Heq). rewrite Heq. cbn [Nat.add].
    assert (res_speakerTag r = None) as Htag.
    { eapply Forall_forall in Htags; [exact Htags|].
      apply list_elem_of_lookup_2 in Hr.
      by apply list_elem_of_filter in Hr as [_ Hr]. }
    unfold batch_speaker, speakerTag_of. rewrite Htag.
    by destruct (j mod 2 =? 0)%nat.
Qed.

(** X18: the recording processor ends without touching the processor's
    state when the recording file cannot be accessed (a skip with the reason
    ['Recording file not found']), when it cannot be read or the provider
    fails (the error is thrown on), and when the provider finds no speech (a
    success with zero segments); a result without any alternative makes it
    throw a [TypeError] with nothing handed to the store. *)
Theorem processRecordingJob_edges w recordingData p :
  truthy (GOOGLE_APPLICATION_CREDENTIALS w) = true →
  (fileAccessible w = false →
   processRecordingJob w recordingData p
   = (Normal (NotProcessed (js "Recording file not found")), p)) ∧
  (fileAccessible w = true → fileReadable w = false →
   processRecordingJob w recordingData p = (Throw IOError, p)) ∧
  (fileAccessible w = true → fileReadable w = true →
   (∀ e, recognize w = Throw e →
         processRecordingJob w recordingData p = (Throw e, p)) ∧
   (recognize w = Normal None ∨ recognize w = Normal (Some []) →
    processRecordingJob w recordingData p = (Normal NoSpeech, p)) ∧
   (∀ result results,
      recognize w = Normal (Some (result :: results)) →
      res_alternatives result = [] →
      processRecordingJob w recordingData p = (Throw TypeError, p))).
Proof.
  intros Hcred. unfold processRecordingJob, rethrowing, try_catch.
  rewrite Hcred. cbn [negb].
  split; [by intros ->|]. split; [by intros -> ->|].
  intros -> ->. cbn [negb]. split; [by intros e ->|]. split.
  - by intros [-> | ->].
  - intros result results -> Hres. simpl. by rewrite Hres.
Qed.
